(** * Spotify-clone: the statistics controller and the chat store

    A shallow embedding of

    - [backend/src/controller/stat.controller.js] ([getStats]), and
    - the zustand chat store ([useChatStore]: [fetchUsers], [initSocket],
      [disconnectSocket], [sendMessage], [fetchMessages],
      [setSelectedUser]),

    together with the properties of both that the specification states. *)

From stdpp Require Import gmap strings list fin_maps.

Open Scope string_scope.
Open Scope list_scope.
Open Scope nat_scope.

(* ===================================================================== *)
(** * The statistics controller                                           *)
(* ===================================================================== *)

Module Stats.

(** ** The document store *)

(** A document of the [songs] or [albums] collection.  The models are not
    part of the controller; the pipeline only reads the [artist] field,
    which is [None] when a document lacks it (the group key is then null). *)
Record Doc := { doc_id : string; artist : option string }.

Record Database := {
  songs : list Doc;
  albums : list Doc;
  users : list Doc
}.

(** [Model.countDocuments()] with no filter. *)
Definition countDocuments (coll : list Doc) : nat := length coll.

(** The document that the [$count: "count"] stage produces. *)
Record CountDoc := { count : nat }.

(** [$unionWith: { coll: "albums", pipeline: [] }]: the input stream
    followed by the whole other collection. *)
Definition unionWith (input other : list Doc) : list Doc := input ++ other.

(** [$group: { _id: "$artist" }]: one group per distinct key. *)
Definition group_by_artist (docs : list Doc) : list (option string) :=
  remove_dups (artist <$> docs).

(** [$count: "count"]: a single document holding the number of inputs, and
    no document at all when there is no input. *)
Definition count_stage {A} (groups : list A) : list CountDoc :=
  match groups with
  | [] => []
  | _ :: _ => [ {| count := length groups |} ]
  end.

(** [Song.aggregate([...])] of [getStats]. *)
Definition aggregate_artists (db : Database) : list CountDoc :=
  count_stage (group_by_artist (unionWith (songs db) (albums db))).

(** ** The four reads and their promises *)

Inductive Read := SongCount | AlbumCount | UserCount | ArtistAggregate.

#[global] Instance Read_eq_dec : EqDecision Read.
Proof. solve_decision. Defined.

(** The order in which the array literal handed to [Promise.all] lists
    (and so issues) the reads. *)
Definition all_reads : list Read :=
  [SongCount; AlbumCount; UserCount; ArtistAggregate].

Definition Error := string.

Inductive Outcome (A : Type) :=
| Fulfilled (a : A)
| Rejected (e : Error).
Arguments Fulfilled {A} a.
Arguments Rejected {A} e.

(** One promise of the array settling. *)
Inductive Settlement :=
| SongsSettled (o : Outcome nat)
| AlbumsSettled (o : Outcome nat)
| UsersSettled (o : Outcome nat)
| ArtistsSettled (o : Outcome (list CountDoc)).

Definition which (s : Settlement) : Read :=
  match s with
  | SongsSettled _ => SongCount
  | AlbumsSettled _ => AlbumCount
  | UsersSettled _ => UserCount
  | ArtistsSettled _ => ArtistAggregate
  end.

Definition fulfilled (s : Settlement) : bool :=
  match s with
  | SongsSettled (Fulfilled _) | AlbumsSettled (Fulfilled _)
  | UsersSettled (Fulfilled _) | ArtistsSettled (Fulfilled _) => true
  | _ => false
  end.

(** Read [r] settling with failure [e]. *)
Definition reject (r : Read) (e : Error) : Settlement :=
  match r with
  | SongCount => SongsSettled (Rejected e)
  | AlbumCount => AlbumsSettled (Rejected e)
  | UserCount => UsersSettled (Rejected e)
  | ArtistAggregate => ArtistsSettled (Rejected e)
  end.

(** Read [r] settling with its share of the given results. *)
Definition fulfil (nSongs nAlbums nUsers : nat) (agg : list CountDoc)
    (r : Read) : Settlement :=
  match r with
  | SongCount => SongsSettled (Fulfilled nSongs)
  | AlbumCount => AlbumsSettled (Fulfilled nAlbums)
  | UserCount => UsersSettled (Fulfilled nUsers)
  | ArtistAggregate => ArtistsSettled (Fulfilled agg)
  end.

(** What a read answers on database [db] when it does not fail. *)
Definition db_settle (db : Database) : Read -> Settlement :=
  fulfil (countDocuments (songs db)) (countDocuments (albums db))
         (countDocuments (users db)) (aggregate_artists db).

(** The result array that [Promise.all] is filling. *)
Record Slots := {
  s_songs : option nat;
  s_albums : option nat;
  s_users : option nat;
  s_artists : option (list CountDoc)
}.

Definition no_slots : Slots :=
  {| s_songs := None; s_albums := None; s_users := None; s_artists := None |}.

Definition filled (r : Read) (sl : Slots) : bool :=
  match r with
  | SongCount => bool_decide (is_Some (s_songs sl))
  | AlbumCount => bool_decide (is_Some (s_albums sl))
  | UserCount => bool_decide (is_Some (s_users sl))
  | ArtistAggregate => bool_decide (is_Some (s_artists sl))
  end.

(** A promise settles once: a slot that holds a value keeps it. *)
Definition keep {A} (old : option A) (new : A) : option A :=
  match old with Some a => Some a | None => Some new end.

Definition fill (s : Settlement) (sl : Slots) : Error + Slots :=
  match s with
  | SongsSettled (Fulfilled n) =>
      inr {| s_songs := keep (s_songs sl) n; s_albums := s_albums sl;
             s_users := s_users sl; s_artists := s_artists sl |}
  | AlbumsSettled (Fulfilled n) =>
      inr {| s_songs := s_songs sl; s_albums := keep (s_albums sl) n;
             s_users := s_users sl; s_artists := s_artists sl |}
  | UsersSettled (Fulfilled n) =>
      inr {| s_songs := s_songs sl; s_albums := s_albums sl;
             s_users := keep (s_users sl) n; s_artists := s_artists sl |}
  | ArtistsSettled (Fulfilled l) =>
      inr {| s_songs := s_songs sl; s_albums := s_albums sl;
             s_users := s_users sl; s_artists := keep (s_artists sl) l |}
  | SongsSettled (Rejected e) | AlbumsSettled (Rejected e)
  | UsersSettled (Rejected e) | ArtistsSettled (Rejected e) => inl e
  end.

(** The destructured array
    [[totalSongs, totalAlbums, totalUsers, uniqueArtists]]. *)
Definition complete (sl : Slots)
  : option (nat * nat * nat * list CountDoc) :=
  match s_songs sl, s_albums sl, s_users sl, s_artists sl with
  | Some a, Some b, Some c, Some d => Some (a, b, c, d)
  | _, _, _, _ => None
  end.

(** [Promise.all]: pending until every member is fulfilled, rejected with
    the reason of the first member that rejects, settled only once. *)
Inductive AllState :=
| Waiting (sl : Slots)
| AllFulfilled (vs : nat * nat * nat * list CountDoc)
| AllRejected (e : Error).

Definition promise_all_step (st : AllState) (s : Settlement) : AllState :=
  match st with
  | Waiting sl =>
      match fill s sl with
      | inl e => AllRejected e
      | inr sl' =>
          match complete sl' with
          | Some vs => AllFulfilled vs
          | None => Waiting sl'
          end
      end
  | _ => st
  end.

(** ** The handler *)

(** What the handler does to its collaborators: issuing a read,
    [res.status(n).json(body)] with the body's fields in order, and
    [next(error)]. *)
Inductive Action :=
| Issue (r : Read)
| Respond (status : nat) (body : list (string * nat))
| Next (e : Error).

(** [uniqueArtists[0]?.count || 0] *)
Definition first_count (uniqueArtists : list CountDoc) : nat :=
  match uniqueArtists with
  | [] => 0
  | d :: _ => if decide (count d = 0) then 0 else count d
  end.

(** The object literal given to [json]. *)
Definition stats_body (totalSongs totalAlbums totalUsers : nat)
    (uniqueArtists : list CountDoc) : list (string * nat) :=
  [ ("totalAlbums", totalAlbums);
    ("totalSongs", totalSongs);
    ("totalUsers", totalUsers);
    ("totalArtists", first_count uniqueArtists) ].

(** The code after the [await]: the rest of the [try] block when the
    combined promise is fulfilled, the [catch] block when it is rejected. *)
Definition continuation (st : AllState) : list Action :=
  match st with
  | Waiting _ => []
  | AllFulfilled (totalSongs, totalAlbums, totalUsers, uniqueArtists) =>
      [ Respond 200 (stats_body totalSongs totalAlbums totalUsers uniqueArtists) ]
  | AllRejected error => [ Next error ]
  end.

Record Handler := { pall : AllState; trace : list Action }.

(** The synchronous part of [getStats]: the array literal is evaluated,
    which issues the four reads, and the handler suspends on the [await]. *)
Definition getStats_begin : Handler :=
  {| pall := Waiting no_slots; trace := Issue <$> all_reads |}.

(** One read settles while the handler is suspended. *)
Definition settle (h : Handler) (s : Settlement) : Handler :=
  match pall h with
  | Waiting _ =>
      let st := promise_all_step (pall h) s in
      {| pall := st; trace := trace h ++ continuation st |}
  | _ => h
  end.

(** [getStats] against reads that settle in the order of [schedule]. *)
Definition getStats (schedule : list Settlement) : Handler :=
  foldl settle getStats_begin schedule.

(** [getStats] on database [db], no read failing, the reads completing in
    the order [order]. *)
Definition getStats_on (db : Database) (order : list Read) : Handler :=
  getStats (db_settle db <$> order).

(** Slots hold nothing but the results the reads are fulfilled with. *)
Definition agree (n1 n2 n3 : nat) (agg : list CountDoc) (sl : Slots) : Prop :=
  (∀ a, s_songs sl = Some a → a = n1)
  ∧ (∀ b, s_albums sl = Some b → b = n2)
  ∧ (∀ c, s_users sl = Some c → c = n3)
  ∧ (∀ d, s_artists sl = Some d → d = agg).

(** A small database: three songs, one of them without artist, two
    albums and one user; three distinct group keys. *)
Definition sample_db : Database :=
  {| songs := [ {| doc_id := "s1"; artist := Some "Adele" |};
                {| doc_id := "s2"; artist := Some "Adele" |};
                {| doc_id := "s3"; artist := None |} ];
     albums := [ {| doc_id := "a1"; artist := Some "Adele" |};
                 {| doc_id := "a2"; artist := Some "Muse" |} ];
     users := [ {| doc_id := "u1"; artist := None |} ] |}.

(** Every value the combined promise holds was delivered by a settlement
    of the schedule [ss]. *)
Definition supported (ss : list Settlement) (st : AllState) : Prop :=
  match st with
  | Waiting sl =>
      (∀ a, s_songs sl = Some a → SongsSettled (Fulfilled a) ∈ ss)
      ∧ (∀ b, s_albums sl = Some b → AlbumsSettled (Fulfilled b) ∈ ss)
      ∧ (∀ c, s_users sl = Some c → UsersSettled (Fulfilled c) ∈ ss)
      ∧ (∀ d, s_artists sl = Some d → ArtistsSettled (Fulfilled d) ∈ ss)
  | AllFulfilled (a, b, c, d) =>
      SongsSettled (Fulfilled a) ∈ ss
      ∧ AlbumsSettled (Fulfilled b) ∈ ss
      ∧ UsersSettled (Fulfilled c) ∈ ss
      ∧ ArtistsSettled (Fulfilled d) ∈ ss
  | AllRejected e => ∃ r, reject r e ∈ ss
  end.

Definition is_issue (a : Action) : bool :=
  match a with Issue _ => true | _ => false end.

Definition is_respond (a : Action) : bool :=
  match a with Respond _ _ => true | _ => false end.

Definition is_next (a : Action) : bool :=
  match a with Next _ => true | _ => false end.

End Stats.

(* ===================================================================== *)
(** * The chat store                                                      *)
(* ===================================================================== *)

Module Chat.

(** A field of type [T | null], which at run time may also hold
    [undefined]. *)
Inductive nullable (A : Type) :=
| null
| undefined
| value (a : A).
Arguments null {A}.
Arguments undefined {A}.
Arguments value {A} a.

(** ** The HTTP client *)

(** An axios response, of which the store reads [data] only. *)
Record Reply (A : Type) := { data : A }.
Arguments data {A} _.

(** A JSON error body; [message] is [None] when the body has no such
    property. *)
Record ErrorBody := { message : option string }.

(** The error that the client rejects with.  [response] is [None] when no
    response arrived (network failure, timeout); the [data] of a response
    is [None] when it is null or undefined. *)
Record AxiosError := { response : option (Reply (option ErrorBody)) }.

Inductive HttpResult (A : Type) :=
| HttpOk (rep : Reply A)
| HttpFail (e : AxiosError).
Arguments HttpOk {A} rep.
Arguments HttpFail {A} e.

(** The error of a server that answered with the message [m]. *)
Definition server_error (m : string) : AxiosError :=
  {| response := Some {| data := Some {| message := Some m |} |} |}.

(** The error of a request that got no response. *)
Definition network_error : AxiosError := {| response := None |}.

(** What a [catch] clause can receive. *)
Inductive exn :=
| AxiosFailure (e : AxiosError)
| TypeError.

(** ** The socket *)

(** The events the store listens to. *)
Inductive EventName :=
| users_online | activities | user_connected | user_disconnected
| receive_message | message_sent | activity_updated.

#[global] Instance EventName_eq_dec : EqDecision EventName.
Proof. solve_decision. Defined.

(** The events the store emits, with their payloads. *)
Inductive Emission :=
| emit_user_connected (userId : string)
| emit_send_message (receiverId senderId content : string).

(** The only socket of the module, [const socket = io(baseURL, ...)]. *)
Inductive SocketRef := shared_socket.

(** The mutable part of that socket: [socket.auth], whether [connect()]
    was called last, and the names under which [on] registered a
    listener, oldest first.  Each [on] of the store registers the one
    closure written for that name, so the name identifies the listener. *)
Record Socket := {
  auth : option string;
  active : bool;
  listeners : list EventName
}.

Section Store.

(** The record types [User] and [Message] come from [@/types]; the store
    moves their values around without looking inside. *)
Context {User Message : Type}.

(** An event pushed by the server, with its payload. *)
Inductive ServerEvent :=
| UsersOnline (users : list string)
| Activities (acts : list (string * string))
| UserConnected (userId : string)
| UserDisconnected (userId : string)
| ReceiveMessage (m : Message)
| MessageSent (m : Message)
| ActivityUpdated (userId activity : string).

Definition event_name (e : ServerEvent) : EventName :=
  match e with
  | UsersOnline _ => users_online
  | Activities _ => activities
  | UserConnected _ => user_connected
  | UserDisconnected _ => user_disconnected
  | ReceiveMessage _ => receive_message
  | MessageSent _ => message_sent
  | ActivityUpdated _ _ => activity_updated
  end.

(** ** The store's state: the data fields of [ChatStore] *)

(** [onlineUsers] is a [Set<string>] and [userActivities] a
    [Map<string, string>]; their contents are kept, not the order in which
    entries were inserted. *)

Record ChatState := {
  users : list User;
  isLoading : bool;
  error : nullable string;
  socket : option SocketRef;
  isConnected : bool;
  onlineUsers : gset string;
  userActivities : gmap string string;
  messages : list Message;
  selectedUser : option User
}.

(** The partial states handed to zustand's [set], which merges them. *)
Definition with_users (v : list User) (s : ChatState) : ChatState :=
  {| users := v; isLoading := isLoading s; error := error s;
     socket := socket s; isConnected := isConnected s;
     onlineUsers := onlineUsers s; userActivities := userActivities s;
     messages := messages s; selectedUser := selectedUser s |}.

Definition with_isLoading (v : bool) (s : ChatState) : ChatState :=
  {| users := users s; isLoading := v; error := error s;
     socket := socket s; isConnected := isConnected s;
     onlineUsers := onlineUsers s; userActivities := userActivities s;
     messages := messages s; selectedUser := selectedUser s |}.

Definition with_error (v : nullable string) (s : ChatState) : ChatState :=
  {| users := users s; isLoading := isLoading s; error := v;
     socket := socket s; isConnected := isConnected s;
     onlineUsers := onlineUsers s; userActivities := userActivities s;
     messages := messages s; selectedUser := selectedUser s |}.

Definition with_isConnected (v : bool) (s : ChatState) : ChatState :=
  {| users := users s; isLoading := isLoading s; error := error s;
     socket := socket s; isConnected := v;
     onlineUsers := onlineUsers s; userActivities := userActivities s;
     messages := messages s; selectedUser := selectedUser s |}.

Definition with_onlineUsers (v : gset string) (s : ChatState) : ChatState :=
  {| users := users s; isLoading := isLoading s; error := error s;
     socket := socket s; isConnected := isConnected s;
     onlineUsers := v; userActivities := userActivities s;
     messages := messages s; selectedUser := selectedUser s |}.

Definition with_userActivities (v : gmap string string) (s : ChatState)
  : ChatState :=
  {| users := users s; isLoading := isLoading s; error := error s;
     socket := socket s; isConnected := isConnected s;
     onlineUsers := onlineUsers s; userActivities := v;
     messages := messages s; selectedUser := selectedUser s |}.

Definition with_messages (v : list Message) (s : ChatState) : ChatState :=
  {| users := users s; isLoading := isLoading s; error := error s;
     socket := socket s; isConnected := isConnected s;
     onlineUsers := onlineUsers s; userActivities := userActivities s;
     messages := v; selectedUser := selectedUser s |}.

Definition with_selectedUser (v : option User) (s : ChatState) : ChatState :=
  {| users := users s; isLoading := isLoading s; error := error s;
     socket := socket s; isConnected := isConnected s;
     onlineUsers := onlineUsers s; userActivities := userActivities s;
     messages := messages s; selectedUser := v |}.

(** ** The world the store acts on *)

(** Every write to the store (with the state it produces) and every call
    to the HTTP client or to the socket, in the order they happen. *)
Inductive Action :=
| StoreSet (s : ChatState)
| HttpGet (url : string)
| SocketAuth (userId : string)
| SocketConnect
| SocketDisconnect
| SocketEmit (e : Emission)
| SocketOn (ev : EventName).

Record World := {
  store : ChatState;
  sock : Socket;
  trace : list Action
}.

(** ** Computations: state and exceptions *)

Inductive Result (A : Type) :=
| Return (a : A)
| Throw (x : exn).
Arguments Return {A} a.
Arguments Throw {A} x.

Definition M (A : Type) : Type := World -> Result A * World.

Definition ret {A} (a : A) : M A := fun w => (Return a, w).

Definition throw {A} (x : exn) : M A := fun w => (Throw x, w).

Definition bind {A B} (c : M A) (k : A -> M B) : M B :=
  fun w =>
    match c w with
    | (Return a, w') => k a w'
    | (Throw x, w') => (Throw x, w')
    end.

(** [try { body } catch (error) { handler }] *)
Definition try_catch {A} (body : M A) (handler : exn -> M A) : M A :=
  fun w =>
    match body w with
    | (Return a, w') => (Return a, w')
    | (Throw x, w') => handler x w'
    end.

(** [try { body } finally { final }]: [final] runs whatever [body] did,
    and an exception of [final] replaces the outcome of [body]. *)
Definition try_finally {A} (body : M A) (final : M unit) : M A :=
  fun w =>
    match body w with
    | (r, w') =>
        match final w' with
        | (Return _, w'') => (r, w'')
        | (Throw x, w'') => (Throw x, w'')
        end
    end.

Definition log (a : Action) (w : World) : World :=
  {| store := store w; sock := sock w; trace := trace w ++ [a] |}.

(** [get()] *)
Definition get_ : M ChatState := fun w => (Return (store w), w).

(** [set(partial)] and [set((state) => partial)] *)
Definition set_ (f : ChatState -> ChatState) : M unit :=
  fun w =>
    let s := f (store w) in
    (Return tt, log (StoreSet s)
                  {| store := s; sock := sock w; trace := trace w |}).

Definition update_socket (f : Socket -> Socket) (a : Action) : M unit :=
  fun w =>
    (Return tt, log a {| store := store w; sock := f (sock w);
                         trace := trace w |}).

(** [socket.auth = { userId }] *)
Definition socket_set_auth (userId : string) : M unit :=
  update_socket
    (fun k => {| auth := Some userId; active := active k;
                 listeners := listeners k |})
    (SocketAuth userId).

(** [socket.connect()] *)
Definition socket_connect : M unit :=
  update_socket
    (fun k => {| auth := auth k; active := true; listeners := listeners k |})
    SocketConnect.

(** [socket.disconnect()] *)
Definition socket_disconnect : M unit :=
  update_socket
    (fun k => {| auth := auth k; active := false; listeners := listeners k |})
    SocketDisconnect.

(** [socket.emit(name, payload)] *)
Definition socket_emit (e : Emission) : M unit :=
  update_socket (fun k => k) (SocketEmit e).

(** [socket.on(name, listener)] *)
Definition socket_on (ev : EventName) : M unit :=
  update_socket
    (fun k => {| auth := auth k; active := active k;
                 listeners := listeners k ++ [ev] |})
    (SocketOn ev).

(** [await axiosInstance.get(url)], the request ending as [r]. *)
Definition axios_get {A} (url : string) (r : HttpResult A) : M (Reply A) :=
  fun w =>
    match r with
    | HttpOk rep => (Return rep, log (HttpGet url) w)
    | HttpFail e => (Throw (AxiosFailure e), log (HttpGet url) w)
    end.

(** [error.response.data.message]; reading a property of [undefined] or
    [null] throws a TypeError, and a TypeError has no [response]. *)
Definition error_response_data_message (error : exn) : M (nullable string) :=
  match error with
  | AxiosFailure e =>
      match response e with
      | None => throw TypeError
      | Some rep =>
          match data rep with
          | None => throw TypeError
          | Some body =>
              match message body with
              | Some m => ret (value m)
              | None => ret undefined
              end
          end
      end
  | TypeError => throw TypeError
  end.

#[local] Instance M_ret : MRet M := @ret.
#[local] Instance M_bind : MBind M := fun A B k c => bind c k.

(** ** The listeners of [initSocket] *)

(** [new Map(entries)]: the entries are set in order, a later entry for a
    key replacing an earlier one. *)
Definition new_Map (entries : list (string * string)) : gmap string string :=
  foldl (fun m kv => <[kv.1 := kv.2]> m) ∅ entries.

(** The updater that the listener written for the event's name hands to
    [set], for the event's payload (the two listeners that pass a plain
    partial state ignore [state]). *)
Definition updater (e : ServerEvent) (state : ChatState) : ChatState :=
  match e with
  | UsersOnline users =>
      with_onlineUsers (list_to_set users) state
  | Activities acts =>
      with_userActivities (new_Map acts) state
  | UserConnected userId =>
      with_onlineUsers (onlineUsers state ∪ {[userId]}) state
  | UserDisconnected userId =>
      with_onlineUsers (onlineUsers state ∖ {[userId]}) state
  | ReceiveMessage message =>
      with_messages (messages state ++ [message]) state
  | MessageSent message =>
      with_messages (messages state ++ [message]) state
  | ActivityUpdated userId activity =>
      with_userActivities (<[userId := activity]> (userActivities state)) state
  end.

(** The listener that [initSocket] registers for the event's name,
    applied to the event's payload. *)
Definition listener (e : ServerEvent) : M unit := set_ (updater e).

(** The names [initSocket] registers a listener for, in its order. *)
Definition registered_events : list EventName :=
  [users_online; activities; user_connected; user_disconnected;
   receive_message; message_sent; activity_updated].

(** The socket receives [e]: every listener registered under its name
    runs, oldest registration first. *)
Fixpoint run_listeners (e : ServerEvent) (ls : list EventName) : M unit :=
  match ls with
  | [] => ret tt
  | ev :: ls' =>
      (if decide (ev = event_name e) then listener e else ret tt) ;;
      run_listeners e ls'
  end.

Definition deliver (e : ServerEvent) : M unit :=
  fun w => run_listeners e (listeners (sock w)) w.

(** ** The store's operations *)

Definition setSelectedUser (user : option User) : M unit :=
  set_ (with_selectedUser user).

(** [fetchUsers], the request ending as [r]. *)
Definition fetchUsers (r : HttpResult (list User)) : M unit :=
  set_ (fun s => with_error null (with_isLoading true s)) ;;
  try_finally
    (try_catch
       (response ← axios_get "/users" r;
        set_ (with_users (data response)))
       (fun error =>
          m ← error_response_data_message error;
          set_ (with_error m)))
    (set_ (with_isLoading false)).

Definition initSocket (userId : string) : M unit :=
  s ← get_;
  if negb (isConnected s) then
    socket_set_auth userId ;;
    socket_connect ;;
    socket_emit (emit_user_connected userId) ;;
    socket_on users_online ;;
    socket_on activities ;;
    socket_on user_connected ;;
    socket_on user_disconnected ;;
    socket_on receive_message ;;
    socket_on message_sent ;;
    socket_on activity_updated ;;
    set_ (with_isConnected true)
  else ret tt.

Definition disconnectSocket : M unit :=
  s ← get_;
  if isConnected s then
    socket_disconnect ;;
    set_ (with_isConnected false)
  else ret tt.

Definition sendMessage (receiverId senderId content : string) : M unit :=
  s ← get_;
  match socket s with
  | None => ret tt
  | Some shared_socket =>
      socket_emit (emit_send_message receiverId senderId content)
  end.

(** [fetchMessages(userId)], the request ending as [r]. *)
Definition fetchMessages (userId : string) (r : HttpResult (list Message))
  : M unit :=
  set_ (fun s => with_error null (with_isLoading true s)) ;;
  try_finally
    (try_catch
       (response ← axios_get ("/users/messages/" ++ userId)%string r;
        set_ (with_messages (data response)))
       (fun error =>
          m ← error_response_data_message error;
          set_ (with_error m)))
    (set_ (with_isLoading false)).

(** What a call of [initSocket] does, in order, when the store [s] is not
    connected. *)
Definition connecting (userId : string) (s : ChatState) : list Action :=
  [ SocketAuth userId; SocketConnect;
    SocketEmit (emit_user_connected userId) ]
  ++ (SocketOn <$> registered_events)
  ++ [ StoreSet (with_isConnected true s) ].

(** The world after a computation, and its outcome. *)
Definition exec {A} (c : M A) (w : World) : World := snd (c w).
Definition outcome {A} (c : M A) (w : World) : Result A := fst (c w).

(** ** The store as created *)

Definition init_state : ChatState :=
  {| users := []; isLoading := false; error := null;
     socket := Some shared_socket; isConnected := false;
     onlineUsers := ∅; userActivities := ∅;
     messages := []; selectedUser := None |}.

Definition init_socket : Socket :=
  {| auth := None; active := false; listeners := [] |}.

Definition init_world : World :=
  {| store := init_state; sock := init_socket; trace := [] |}.

(** What can happen to the store: a call of one of its operations, or the
    socket receiving an event. *)
Inductive Op :=
| CallSetSelectedUser (user : option User)
| CallFetchUsers (r : HttpResult (list User))
| CallInitSocket (userId : string)
| CallDisconnectSocket
| CallSendMessage (receiverId senderId content : string)
| CallFetchMessages (userId : string) (r : HttpResult (list Message))
| Receive (e : ServerEvent).

Definition run_op (o : Op) : M unit :=
  match o with
  | CallSetSelectedUser u => setSelectedUser u
  | CallFetchUsers r => fetchUsers r
  | CallInitSocket u => initSocket u
  | CallDisconnectSocket => disconnectSocket
  | CallSendMessage a b c => sendMessage a b c
  | CallFetchMessages u r => fetchMessages u r
  | Receive e => deliver e
  end.

(** The world after a session: the operations of [ops], in order, on the
    store as created. *)
Definition session (ops : list Op) : World :=
  foldl (fun w o => exec (run_op o) w) init_world ops.

(** The store after a first [initSocket]. *)
Definition connected_world (userId : string) : World :=
  exec (initSocket userId) init_world.

(** The store as created, but with no socket in it. *)
Definition socketless_world : World :=
  {| store := {| users := []; isLoading := false; error := null;
                 socket := None; isConnected := false;
                 onlineUsers := ∅; userActivities := ∅;
                 messages := []; selectedUser := None |};
     sock := init_socket; trace := [] |}.

(** The socket receives the events of [es], one after the other. *)
Definition deliver_all (es : list ServerEvent) (w : World) : World :=
  foldl (fun w e => exec (deliver e) w) w es.

(** The message an event carries, for the two message events. *)
Definition message_of (e : ServerEvent) : option Message :=
  match e with
  | ReceiveMessage m | MessageSent m => Some m
  | _ => None
  end.

Definition is_connect (a : Action) : bool :=
  match a with SocketConnect => true | _ => false end.

Definition is_socket_call (a : Action) : bool :=
  match a with
  | SocketAuth _ | SocketConnect | SocketDisconnect
  | SocketEmit _ | SocketOn _ => true
  | _ => false
  end.

Definition is_get (a : Action) : bool :=
  match a with HttpGet _ => true | _ => false end.

Definition is_connect_emission (a : Action) : bool :=
  match a with SocketEmit (emit_user_connected _) => true | _ => false end.

Definition is_registration (a : Action) : bool :=
  match a with SocketOn _ => true | _ => false end.

Definition is_store_set (a : Action) : bool :=
  match a with StoreSet _ => true | _ => false end.

End Store.

Arguments ServerEvent : clear implicits.
Arguments ChatState : clear implicits.
Arguments Action : clear implicits.
Arguments World : clear implicits.
Arguments M : clear implicits.
Arguments Op : clear implicits.
Arguments Return {A} a.
Arguments Throw {A} x.

End Chat.

(* ===================================================================== *)
(** * Properties of the statistics controller                             *)
(* ===================================================================== *)

Section StatsProperties.

Import Stats.

(** ** The aggregation pipeline *)

Lemma length_remove_dups_le {A} `{EqDecision A} (l : list A) :
  length (remove_dups l) ≤ length l.
Proof.
  induction l as [|x l IH]; simpl; [lia|].
  destruct (decide_rel elem_of x l); simpl; lia.
Qed.

Lemma first_count_count_stage {A} (groups : list A) :
  first_count (count_stage groups) = length groups.
Proof.
  destruct groups as [|g groups]; [reflexivity|].
  unfold count_stage, first_count. simpl. reflexivity.
Qed.


Lemma group_count_le (db : Database) :
  length (group_by_artist (unionWith (songs db) (albums db)))
  ≤ length (songs db) + length (albums db).
Proof.
  unfold group_by_artist, unionWith.
  etrans; [apply length_remove_dups_le|].
  by rewrite length_fmap, length_app.
Qed.

(** ** [Promise.all] over the four reads *)

Lemma fill_fulfilled (s : Settlement) (sl : Slots) :
  fulfilled s = true →
  ∃ sl', fill s sl = inr sl'
         ∧ ∀ r, filled r sl' = filled r sl || bool_decide (r = which s).
Proof.
  intros Hs.
  destruct s as [[n|e]|[n|e]|[n|e]|[l|e]]; try discriminate Hs;
    simpl; (eexists; split; [reflexivity|]);
    intros r; destruct sl as [[a|] [b|] [c|] [d|]], r; reflexivity.
Qed.

Lemma complete_blocked (r : Read) (sl : Slots) :
  filled r sl = false → complete sl = None.
Proof.
  destruct sl as [[a|] [b|] [c|] [d|]], r; simpl; try reflexivity;
    intros H; discriminate H.
Qed.

Lemma complete_filled (sl : Slots) :
  (∀ r, filled r sl = true) → is_Some (complete sl).
Proof.
  intros H.
  pose proof (H SongCount) as H1. pose proof (H AlbumCount) as H2.
  pose proof (H UserCount) as H3. pose proof (H ArtistAggregate) as H4.
  destruct sl as [[a|] [b|] [c|] [d|]]; simpl in *; try discriminate.
  by eexists.
Qed.

(** Once the combined promise is settled, later settlements change
    nothing. *)
Lemma settle_settled (h : Handler) (ss : list Settlement) :
  (∀ sl, pall h ≠ Waiting sl) → foldl settle h ss = h.
Proof.
  intros Hh. induction ss as [|s ss IH]; [reflexivity|].
  simpl. replace (settle h s) with h; [exact IH|].
  unfold settle. destruct (pall h) as [sl| |]; [by destruct (Hh sl)|done..].
Qed.

(** While a read is pending and no other read has failed, the handler
    stays suspended and does nothing. *)
Lemma pending_waits (r0 : Read) (ss : list Settlement) :
  ∀ (h : Handler) (sl0 : Slots),
    pall h = Waiting sl0 →
    filled r0 sl0 = false →
    Forall (λ s, fulfilled s = true) ss →
    r0 ∉ which <$> ss →
    ∃ sl, foldl settle h ss = {| pall := Waiting sl; trace := trace h |}
          ∧ ∀ r, filled r sl = filled r sl0 || bool_decide (r ∈ which <$> ss).
Proof.
  induction ss as [|s ss IH]; intros h sl0 Hh Hr0 Hall Hnot.
  - exists sl0. split.
    + destruct h as [p t]. simpl in *. by subst.
    + intros r. rewrite fmap_nil.
      rewrite (bool_decide_eq_false_2 (r ∈ [])) by apply not_elem_of_nil.
      by rewrite orb_false_r.
  - apply Forall_cons in Hall as [Hs Hall].
    rewrite fmap_cons, not_elem_of_cons in Hnot. destruct Hnot as [Hne Hnot].
    destruct (fill_fulfilled s sl0 Hs) as (sl1 & Hfill & Hsl1).
    assert (Hr1 : filled r0 sl1 = false).
    { rewrite Hsl1, Hr0. simpl. by apply bool_decide_eq_false_2. }
    assert (Hstep : settle h s = {| pall := Waiting sl1; trace := trace h |}).
    { unfold settle, promise_all_step. rewrite Hh, Hfill.
      rewrite (complete_blocked r0 sl1 Hr1). simpl. by rewrite app_nil_r. }
    cbn [foldl]. rewrite Hstep.
    destruct (IH {| pall := Waiting sl1; trace := trace h |} sl1
                eq_refl Hr1 Hall Hnot) as (sl & Hrun & Hsl).
    exists sl. split; [exact Hrun|].
    intros r. rewrite Hsl, Hsl1, fmap_cons.
    destruct (decide (r = which s)) as [->|Hrs].
    + rewrite (bool_decide_eq_true_2 (which s = which s)) by done.
      rewrite (bool_decide_eq_true_2 (which s ∈ which s :: (which <$> ss)))
        by (apply elem_of_cons; by left).
      by rewrite !orb_true_r.
    + rewrite (bool_decide_eq_false_2 (r = which s)) by done.
      rewrite orb_false_r. f_equal.
      apply bool_decide_ext. rewrite elem_of_cons. tauto.
Qed.

Lemma fill_agree n1 n2 n3 agg (r : Read) (sl : Slots) :
  agree n1 n2 n3 agg sl →
  ∃ sl', fill (fulfil n1 n2 n3 agg r) sl = inr sl'
         ∧ agree n1 n2 n3 agg sl'
         ∧ filled r sl' = true
         ∧ ∀ r', filled r' sl = true → filled r' sl' = true.
Proof.
  intros (H1 & H2 & H3 & H4).
  destruct r; simpl; (eexists; split; [reflexivity|]);
    destruct sl as [[a|] [b|] [c|] [d|]]; simpl in *;
    (split; [repeat split; intros ? [= <-]; auto|]);
    (split; [reflexivity|]); intros []; simpl; done.
Qed.

Lemma complete_agree n1 n2 n3 agg (sl : Slots) vs :
  agree n1 n2 n3 agg sl → complete sl = Some vs → vs = (n1, n2, n3, agg).
Proof.
  intros (H1 & H2 & H3 & H4).
  destruct sl as [[a|] [b|] [c|] [d|]]; simpl in *; intros [= <-].
  by rewrite (H1 a), (H2 b), (H3 c), (H4 d).
Qed.

(** When no read fails, the handler answers as soon as the last of the
    four is fulfilled, whatever the order. *)
Lemma fulfilled_responds n1 n2 n3 agg (order : list Read) :
  ∀ (h : Handler) (sl : Slots),
    pall h = Waiting sl →
    agree n1 n2 n3 agg sl →
    complete sl = None →
    (∀ r, filled r sl = true ∨ r ∈ order) →
    foldl settle h (fulfil n1 n2 n3 agg <$> order)
    = {| pall := AllFulfilled (n1, n2, n3, agg);
         trace := trace h ++ [Respond 200 (stats_body n1 n2 n3 agg)] |}.
Proof.
  induction order as [|r order IH]; intros h sl Hh Hag Hnone Hcov.
  - destruct (complete_filled sl) as [vs Hvs]; [|congruence].
    intros r. destruct (Hcov r) as [?|Hin]; [done|].
    by apply elem_of_nil in Hin.
  - destruct (fill_agree n1 n2 n3 agg r sl Hag) as (sl1 & Hfill & Hag1 & Hr & Hmono).
    rewrite fmap_cons. cbn [foldl].
    destruct (complete sl1) as [vs|] eqn:Hc.
    + rewrite (complete_agree _ _ _ _ _ _ Hag1 Hc) in Hc.
      assert (Hstep : settle h (fulfil n1 n2 n3 agg r)
                      = {| pall := AllFulfilled (n1, n2, n3, agg);
                           trace := trace h ++ [Respond 200 (stats_body n1 n2 n3 agg)] |}).
      { unfold settle, promise_all_step. by rewrite Hh, Hfill, Hc. }
      rewrite Hstep. by apply settle_settled.
    + assert (Hstep : settle h (fulfil n1 n2 n3 agg r)
                      = {| pall := Waiting sl1; trace := trace h |}).
      { unfold settle, promise_all_step. rewrite Hh, Hfill, Hc. simpl.
        by rewrite app_nil_r. }
      rewrite Hstep.
      apply (IH {| pall := Waiting sl1; trace := trace h |} sl1);
        [done..|].
      intros r'. destruct (Hcov r') as [?|Hin]; [left; by apply Hmono|].
      apply elem_of_cons in Hin as [->|?]; [by left|by right].
Qed.

Lemma getStats_fulfilled n1 n2 n3 agg (order : list Read) :
  (∀ r, r ∈ order) →
  getStats (fulfil n1 n2 n3 agg <$> order)
  = {| pall := AllFulfilled (n1, n2, n3, agg);
       trace := (Issue <$> all_reads)
                  ++ [Respond 200 (stats_body n1 n2 n3 agg)] |}.
Proof.
  intros Hcov. unfold getStats.
  apply (fulfilled_responds n1 n2 n3 agg order getStats_begin no_slots);
    [reflexivity| |reflexivity|by right].
  repeat split; intros ?; discriminate.
Qed.

(** A rejection that arrives while the handler is suspended is handed to
    [next], and nothing else happens afterwards. *)
Lemma getStats_rejected (pre post : list Settlement) (r : Read) (e : Error) :
  Forall (λ s, fulfilled s = true) pre →
  r ∉ which <$> pre →
  getStats (pre ++ reject r e :: post)
  = {| pall := AllRejected e; trace := (Issue <$> all_reads) ++ [Next e] |}.
Proof.
  intros Hpre Hr. unfold getStats. rewrite foldl_app.
  destruct (pending_waits r pre getStats_begin no_slots) as (sl & -> & _);
    [reflexivity|by destruct r|done..|].
  cbn [foldl].
  assert (Hstep : settle {| pall := Waiting sl; trace := trace getStats_begin |}
                         (reject r e)
                  = {| pall := AllRejected e;
                       trace := (Issue <$> all_reads) ++ [Next e] |}).
  { by destruct r. }
  rewrite Hstep. by apply settle_settled.
Qed.

(** A schedule in which some read fails splits at its first failure. *)
Lemma first_rejection (ss : list Settlement) :
  Exists (λ s, fulfilled s = false) ss →
  ∃ pre r e post,
    ss = pre ++ reject r e :: post ∧ Forall (λ s, fulfilled s = true) pre.
Proof.
  induction ss as [|s ss IH]; intros Hex; [by apply Exists_nil in Hex|].
  destruct (fulfilled s) eqn:Hs.
  - apply Exists_cons in Hex as [?|Hex]; [congruence|].
    destruct (IH Hex) as (pre & r & e & post & -> & Hpre).
    exists (s :: pre), r, e, post. split; [reflexivity|].
    by apply Forall_cons.
  - exists [], (which s).
    destruct s as [[n|e]|[n|e]|[n|e]|[l|e]]; try discriminate Hs;
      exists e, ss; (split; [reflexivity|apply Forall_nil_2]).
Qed.

(** Settlements issue no read. *)
Lemma settle_issues_nothing (ss : list Settlement) :
  ∀ h : Handler,
    ∃ rest, trace (foldl settle h ss) = trace h ++ rest
            ∧ filter (λ a, is_issue a = true) rest = [].
Proof.
  induction ss as [|s ss IH]; intros h.
  - exists []. by rewrite app_nil_r.
  - cbn [foldl]. destruct (IH (settle h s)) as (rest & -> & Hrest).
    assert (Hstep : ∃ one, trace (settle h s) = trace h ++ one
                           ∧ filter (λ a, is_issue a = true) one = []).
    { unfold settle. destruct (pall h) as [sl| |];
        [|exists []; by rewrite app_nil_r..].
      eexists. split; [reflexivity|].
      destruct (promise_all_step (Waiting sl) s) as [?|[[[? ?] ?] ?]|?];
        reflexivity. }
    destruct Hstep as (one & -> & Hone).
    exists (one ++ rest). split; [by rewrite app_assoc|].
    by rewrite filter_app, Hone, Hrest.
Qed.

(** ** The contract of [getStats] *)

(** C1: on every database, when the four reads succeed (in whatever order
    they complete), [getStats] answers with a summary whose [totalArtists]
    is at most [totalSongs + totalAlbums], and is 0 when the song and
    album collections are both empty. *)
Theorem getStats_artists_bound (db : Database) (order : list Read) :
  all_reads ⊆ order →
  ∃ totalArtists,
    trace (getStats_on db order)
    = (Issue <$> all_reads)
        ++ [Respond 200 [ ("totalAlbums", length (albums db));
                          ("totalSongs", length (songs db));
                          ("totalUsers", length (users db));
                          ("totalArtists", totalArtists) ]]
    ∧ totalArtists ≤ length (songs db) + length (albums db)
    ∧ (songs db = [] → albums db = [] → totalArtists = 0).
Proof.
  intros Hcov.
  exists (length (group_by_artist (unionWith (songs db) (albums db)))).
  split; [|split].
  - unfold getStats_on, db_settle. rewrite getStats_fulfilled.
    + unfold stats_body, aggregate_artists, countDocuments; simpl.
      by rewrite first_count_count_stage.
    + intros r. apply Hcov. destruct r; set_solver.
  - apply group_count_le.
  - by intros -> ->.
Qed.


(** C7: when a read fails (each read settling at most once), [getStats]
    hands the failure of the first read that fails, as it is, to [next],
    once; it has issued the four reads once each and nothing again, and it
    sends no response, whatever the other reads returned. *)
Theorem getStats_forwards_failure (ss : list Settlement) :
  NoDup (which <$> ss) →
  Exists (λ s, fulfilled s = false) ss →
  ∃ pre r e post,
    ss = pre ++ reject r e :: post
    ∧ Forall (λ s, fulfilled s = true) pre
    ∧ getStats ss
      = {| pall := AllRejected e;
           trace := (Issue <$> all_reads) ++ [Next e] |}.
Proof.
  intros Hnd Hex.
  destruct (first_rejection ss Hex) as (pre & r & e & post & -> & Hpre).
  exists pre, r, e, post. split; [reflexivity|]. split; [exact Hpre|].
  apply getStats_rejected; [exact Hpre|].
  rewrite fmap_app, fmap_cons in Hnd.
  apply NoDup_app in Hnd as (_ & Hdisj & _).
  intros Hin. apply (Hdisj r Hin).
  replace (which (reject r e)) with r by (by destruct r).
  apply elem_of_cons. by left.
Qed.

(** C9: the synchronous part of [getStats] issues the four reads before
    anything settles, and no settlement issues a read; while a read is
    blocked and the others have been fulfilled, all four reads have been
    issued and nothing has been answered; the answer comes with the
    fulfilment that completes the four. *)
Theorem getStats_reads_concurrent (blocked : Read)
    (ss schedule : list Settlement) (s : Settlement) :
  Forall (λ s, fulfilled s = true) ss →
  blocked ∉ which <$> ss →
  trace getStats_begin = Issue <$> all_reads
  ∧ filter (λ a, is_issue a = true) (trace (getStats schedule))
    = Issue <$> all_reads
  ∧ trace (getStats ss) = Issue <$> all_reads
  ∧ (∃ sl, pall (getStats ss) = Waiting sl)
  ∧ (fulfilled s = true →
     all_reads ⊆ which <$> (ss ++ [s]) →
     ∃ body, trace (getStats (ss ++ [s]))
             = (Issue <$> all_reads) ++ [Respond 200 body]).
Proof.
  intros Hss Hblocked.
  destruct (pending_waits blocked ss getStats_begin no_slots) as (sl & Hrun & Hsl);
    [reflexivity|by destruct blocked|done..|].
  split; [reflexivity|]. split.
  { unfold getStats.
    destruct (settle_issues_nothing schedule getStats_begin) as (rest & -> & Hrest).
    by rewrite filter_app, Hrest. }
  unfold getStats at 1 2. rewrite Hrun.
  split; [reflexivity|]. split; [by exists sl|].
  intros Hs Hcov. unfold getStats. rewrite foldl_app, Hrun. cbn [foldl].
  destruct (fill_fulfilled s sl Hs) as (sl' & Hfill & Hsl').
  destruct (complete_filled sl') as [[[[a b] c] d] Hc].
  { intros r. rewrite Hsl', Hsl.
    assert (Hr : r ∈ which <$> (ss ++ [s])) by (apply Hcov; destruct r; set_solver).
    rewrite fmap_app in Hr. apply elem_of_app in Hr as [Hr|Hr].
    - rewrite (bool_decide_eq_true_2 _ Hr). by rewrite orb_true_r.
    - rewrite fmap_cons, fmap_nil in Hr. apply list_elem_of_singleton in Hr.
      rewrite (bool_decide_eq_true_2 _ Hr). by rewrite orb_true_r. }
  exists (stats_body a b c d).
  unfold settle, promise_all_step. cbn [pall trace]. by rewrite Hfill, Hc.
Qed.

End StatsProperties.

(* ===================================================================== *)
(** * Further properties of the statistics controller                     *)
(* ===================================================================== *)

Section StatsFurther.

Import Stats.

Lemma getStats_snoc (ss : list Settlement) (s : Settlement) :
  getStats (ss ++ [s]) = settle (getStats ss) s.
Proof. unfold getStats. by rewrite foldl_app. Qed.

Lemma supported_mono (ss : list Settlement) (s : Settlement) (st : AllState) :
  supported ss st → supported (ss ++ [s]) st.
Proof.
  assert (Hin : ∀ x, x ∈ ss → x ∈ ss ++ [s])
    by (intros x Hx; apply elem_of_app; by left).
  destruct st as [sl|[[[a b] c] d]|e]; simpl.
  - intros (H1 & H2 & H3 & H4). repeat split; intros v Hv; apply Hin; auto.
  - intros (H1 & H2 & H3 & H4). repeat split; by apply Hin.
  - intros [r Hr]. exists r. by apply Hin.
Qed.

Lemma complete_slots (sl : Slots) a b c d :
  complete sl = Some (a, b, c, d) →
  s_songs sl = Some a ∧ s_albums sl = Some b
  ∧ s_users sl = Some c ∧ s_artists sl = Some d.
Proof.
  destruct sl as [[a'|] [b'|] [c'|] [d'|]]; simpl; intros [= -> -> -> ->];
    done.
Qed.

(** The combined promise never holds a value or a reason that no read
    delivered. *)
Lemma getStats_supported (ss : list Settlement) :
  supported ss (pall (getStats ss)).
Proof.
  induction ss as [|s ss IH] using rev_ind.
  - simpl. repeat split; intros v Hv; discriminate Hv.
  - rewrite getStats_snoc. apply (supported_mono ss s) in IH.
    assert (Hs : s ∈ ss ++ [s])
      by (apply elem_of_app; right; by apply list_elem_of_singleton).
    unfold settle. destruct (pall (getStats ss)) as [sl|vs|e] eqn:Hp;
      [|by rewrite Hp..].
    cbn [pall]. unfold promise_all_step.
    destruct (fill s sl) as [e|sl'] eqn:Hfill.
    + exists (which s).
      destruct s as [[n|e']|[n|e']|[n|e']|[l|e']]; simpl in Hfill;
        try discriminate; injection Hfill as ->; exact Hs.
    + assert (Hsl' : supported (ss ++ [s]) (Waiting sl')).
      { destruct IH as (H1 & H2 & H3 & H4).
        destruct s as [[n|e']|[n|e']|[n|e']|[l|e']]; simpl in Hfill;
          try discriminate; injection Hfill as <-;
          destruct sl as [[a|] [b|] [c|] [d|]]; simpl in *;
          repeat split; intros v [= <-]; auto. }
      destruct (complete sl') as [[[[a b] c] d]|] eqn:Hc; [|exact Hsl'].
      destruct (complete_slots _ _ _ _ _ Hc) as (Ha & Hb & Hcc & Hd).
      destruct Hsl' as (H1 & H2 & H3 & H4). simpl. auto.
Qed.

(** X1: whatever the reads do, and in whatever order, [getStats] ends in
    one of three ways: still waiting, having called nothing but the four
    reads; having answered once, with status 200 and the four fields in
    the order of the source; or having called [next] once.  It never
    answers twice and never both answers and calls [next]. *)
Theorem getStats_single_outcome (ss : list Settlement) :
  (∃ sl, pall (getStats ss) = Waiting sl
         ∧ trace (getStats ss) = Issue <$> all_reads)
  ∨ (∃ a b c d,
       pall (getStats ss) = AllFulfilled (a, b, c, d)
       ∧ trace (getStats ss)
         = (Issue <$> all_reads)
             ++ [Respond 200 [ ("totalAlbums", b); ("totalSongs", a);
                               ("totalUsers", c);
                               ("totalArtists", first_count d) ]])
  ∨ (∃ e, pall (getStats ss) = AllRejected e
          ∧ trace (getStats ss) = (Issue <$> all_reads) ++ [Next e]).
Proof.
  induction ss as [|s ss IH] using rev_ind.
  - left. by exists no_slots.
  - rewrite getStats_snoc. unfold settle.
    destruct IH as [(sl & Hp & Ht)|[(a & b & c & d & Hp & Ht)|(e & Hp & Ht)]];
      rewrite Hp.
    + cbn [pall trace]. rewrite Ht. unfold promise_all_step.
      destruct (fill s sl) as [e|sl'].
      * right; right. by exists e.
      * destruct (complete sl') as [[[[a b] c] d]|].
        -- right; left. by exists a, b, c, d.
        -- left. exists sl'. by rewrite app_nil_r.
    + right; left. exists a, b, c, d. by rewrite Hp.
    + right; right. exists e. by rewrite Hp.
Qed.

(** X2: when [getStats] answers, each of the four figures it sends is the
    value some read of the schedule was fulfilled with; and the reason it
    hands to [next] is the reason some read of the schedule was rejected
    with. *)
Theorem getStats_answers_from_reads (ss : list Settlement) (a b c : nat)
    (d : list CountDoc) (e : Error) :
  (pall (getStats ss) = AllFulfilled (a, b, c, d) →
   SongsSettled (Fulfilled a) ∈ ss
   ∧ AlbumsSettled (Fulfilled b) ∈ ss
   ∧ UsersSettled (Fulfilled c) ∈ ss
   ∧ ArtistsSettled (Fulfilled d) ∈ ss)
  ∧ (pall (getStats ss) = AllRejected e → ∃ r, reject r e ∈ ss).
Proof.
  pose proof (getStats_supported ss) as H.
  split; intros Hp; rewrite Hp in H; exact H.
Qed.

(** ** The number of artists *)





End StatsFurther.

(* ===================================================================== *)
(** * Properties of the chat store                                        *)
(* ===================================================================== *)

Section ChatProperties.

Import Chat.

Context {User Message : Type}.

Implicit Types (w : World User Message) (s : ChatState User Message).

(** Runs a computation of the store symbolically: the operations are
    unfolded and evaluated step by step, then the last write. *)
Ltac run_store :=
  unfold exec, outcome, fetchUsers, fetchMessages, initSocket,
    disconnectSocket, sendMessage, setSelectedUser, deliver, listener,
    mbind, M_bind;
  cbn;
  unfold set_, update_socket, log, ret, throw;
  cbn;
  rewrite <- ?app_assoc;
  cbn.

(** Settles a closed decidable proposition by evaluation. *)
Ltac by_evaluation := apply (bool_decide_unpack _); vm_compute; exact I.

(** ** Connecting *)

Lemma initSocket_connected (userId : string) w :
  isConnected (store w) = true → initSocket userId w = (Return tt, w).
Proof.
  intros Hc. run_store. by rewrite Hc.
Qed.

Lemma initSocket_disconnected (userId : string) w :
  isConnected (store w) = false →
  initSocket userId w
  = (Return tt,
     {| store := with_isConnected true (store w);
        sock := {| auth := Some userId; active := true;
                   listeners := listeners (sock w) ++ registered_events |};
        trace := trace w ++ connecting userId (store w) |}).
Proof.
  intros Hc. unfold initSocket, mbind, M_bind. cbn. rewrite Hc.
  run_store. reflexivity.
Qed.

(** C2: called on a connected store, [initSocket] does nothing at all: the
    store, the socket and the record of calls are as before.  So a second
    call right after a first changes nothing, and two calls in a row on a
    store that is not connected make the [user_connected] emission once
    and register each of the seven listeners once. *)
Theorem initSocket_idempotent (first second : string) w :
  (isConnected (store w) = true → initSocket second w = (Return tt, w))
  ∧ exec (initSocket second) (exec (initSocket first) w)
    = exec (initSocket first) w
  ∧ (isConnected (store w) = false →
     let w2 := exec (initSocket second) (exec (initSocket first) w) in
     let done := connecting first (store w) in
     trace w2 = trace w ++ done
     ∧ filter (λ a, is_connect_emission a = true) done
       = [SocketEmit (emit_user_connected first)]
     ∧ filter (λ a, is_registration a = true) done
       = SocketOn <$> registered_events
     ∧ length registered_events = 7
     ∧ listeners (sock w2) = listeners (sock w) ++ registered_events
     ∧ isConnected (store w2) = true).
Proof.
  split; [apply initSocket_connected|]. split.
  - unfold exec. destruct (isConnected (store w)) eqn:Hc.
    + rewrite (initSocket_connected first w Hc). cbn [snd].
      by rewrite (initSocket_connected second w Hc).
    + rewrite (initSocket_disconnected first w Hc). cbn [snd].
      by rewrite initSocket_connected.
  - intros Hc. unfold exec.
    rewrite (initSocket_disconnected first w Hc). cbn [snd].
    rewrite initSocket_connected by reflexivity.
    cbn [snd trace sock store listeners].
    repeat split; reflexivity.
Qed.

(** ** Fetching *)

(** What [fetchUsers] keeps of its contract: it first sets the loading
    flag and then issues one GET of [/users]; when the request succeeds
    [users] is the received roster; when the server answers with an error
    message, [users] is as before and [error] is that message; and
    whatever the request ends as, also with no response at all,
    [isLoading] is false afterwards. *)
Theorem fetchUsers_spec (roster : list User) (m : string)
    (r : HttpResult (list User)) w :
  let ok := exec (fetchUsers (HttpOk {| data := roster |})) w in
  let ko := exec (fetchUsers (HttpFail (server_error m))) w in
  (∃ rest,
     trace (exec (fetchUsers r) w)
     = trace w ++ [ StoreSet (with_error null (with_isLoading true (store w)));
                    HttpGet "/users" ] ++ rest
     ∧ filter (λ a, is_get a = true) rest = [])
  ∧ users (store ok) = roster
  ∧ outcome (fetchUsers (HttpOk {| data := roster |})) w = Return tt
  ∧ users (store ko) = users (store w)
  ∧ error (store ko) = value m
  ∧ outcome (fetchUsers (HttpFail (server_error m))) w = Return tt
  ∧ isLoading (store ok) = false
  ∧ isLoading (store ko) = false
  ∧ isLoading (store (exec (fetchUsers r) w)) = false.
Proof.
  repeat split; try reflexivity.
  - destruct r as [rep|[[[[[[m'|]]|]]|]]]; run_store;
      (eexists; split; [reflexivity|reflexivity]).
  - by destruct r as [rep|[[[[[[m'|]]|]]|]]].
Qed.

(** C10: the first thing [fetchUsers] and [fetchMessages] do is a write to
    the store that leaves [error] null, and the GET comes right after it,
    whatever the request ends as; the [error] they leave behind does not
    depend on the [error] they found. *)
Theorem fetch_resets_error (peer : string) (old : nullable string)
    (ru : HttpResult (list User)) (rm : HttpResult (list Message)) w :
  let w0 := {| store := with_error old (store w); sock := sock w;
               trace := trace w |} in
  (∃ s rest,
     trace (exec (fetchUsers ru) w0)
     = trace w ++ [StoreSet s; HttpGet "/users"] ++ rest
     ∧ error s = null
     ∧ filter (λ a, is_get a = true) rest = [])
  ∧ (∃ s rest,
       trace (exec (fetchMessages peer rm) w0)
       = trace w ++ [StoreSet s; HttpGet ("/users/messages/" ++ peer)%string]
                 ++ rest
       ∧ error s = null
       ∧ filter (λ a, is_get a = true) rest = [])
  ∧ error (store (exec (fetchUsers ru) w0))
    = error (store (exec (fetchUsers ru) w))
  ∧ error (store (exec (fetchMessages peer rm) w0))
    = error (store (exec (fetchMessages peer rm) w)).
Proof.
  intros w0. split; [|split; [|split]].
  - destruct ru as [rep|[[[[[[m'|]]|]]|]]]; run_store;
      (eexists _, _; split; [reflexivity|split; reflexivity]).
  - destruct rm as [rep|[[[[[[m'|]]|]]|]]]; run_store;
      (eexists _, _; split; [reflexivity|split; reflexivity]).
  - by destruct ru as [rep|[[[[[[m'|]]|]]|]]].
  - by destruct rm as [rep|[[[[[[m'|]]|]]|]]].
Qed.

(** When no response arrived, reading [error.response.data] throws inside
    the [catch] block: the promise of [fetchUsers] is rejected, [error]
    stays null and [users] is kept, and the [finally] block still clears
    the loading flag. *)
Lemma fetchUsers_no_response w :
  outcome (fetchUsers (HttpFail network_error)) w = Throw TypeError
  ∧ error (store (exec (fetchUsers (HttpFail network_error)) w)) = null
  ∧ users (store (exec (fetchUsers (HttpFail network_error)) w))
    = users (store w)
  ∧ isLoading (store (exec (fetchUsers (HttpFail network_error)) w)) = false.
Proof. repeat split. Qed.

(** C3: a request of [fetchUsers] that fails without a response (network
    failure, timeout) is not recorded: the [catch] block reads
    [error.response.data.message] of an error whose [response] is
    undefined, which throws a TypeError, so the only writes to the store
    are the one that sets the loading flag and the one of the [finally]
    block; the promise is rejected with the TypeError and [error] is null,
    not a message, afterwards. *)
Theorem fetchUsers_network_failure (m : string) w :
  trace (exec (fetchUsers (HttpFail network_error)) w)
  = trace w
      ++ [ StoreSet (with_error null (with_isLoading true (store w)));
           HttpGet "/users";
           StoreSet (with_isLoading false
                       (with_error null (with_isLoading true (store w)))) ]
  ∧ outcome (fetchUsers (HttpFail network_error)) w = Throw TypeError
  ∧ error (store (exec (fetchUsers (HttpFail network_error)) w)) = null
  ∧ error (store (exec (fetchUsers (HttpFail network_error)) w)) ≠ value m.
Proof.
  run_store. repeat split. discriminate.
Qed.

(** [fetchMessages] follows the same discipline on [messages]. *)
Lemma fetchMessages_spec (peer : string) (history : list Message)
    (m : string) (r : HttpResult (list Message)) w :
  messages (store (exec (fetchMessages peer (HttpOk {| data := history |})) w))
  = history
  ∧ messages (store (exec (fetchMessages peer (HttpFail (server_error m))) w))
    = messages (store w)
  ∧ error (store (exec (fetchMessages peer (HttpFail (server_error m))) w))
    = value m
  ∧ isLoading (store (exec (fetchMessages peer r) w)) = false.
Proof.
  repeat split. by destruct r as [rep|[[[[[[m'|]]|]]|]]].
Qed.

(** ** Sending *)

(** C8: [sendMessage] never throws and never changes the store or the
    socket; without a socket in the store it does nothing at all, and with
    one it makes exactly one call, the emission of [send_message] with the
    three fields. *)
Theorem sendMessage_spec (receiverId senderId content : string) w :
  outcome (sendMessage receiverId senderId content) w = Return tt
  ∧ store (exec (sendMessage receiverId senderId content) w) = store w
  ∧ sock (exec (sendMessage receiverId senderId content) w) = sock w
  ∧ (socket (store w) = None →
     exec (sendMessage receiverId senderId content) w = w)
  ∧ (∀ h, socket (store w) = Some h →
     trace (exec (sendMessage receiverId senderId content) w)
     = trace w ++ [SocketEmit (emit_send_message receiverId senderId content)]).
Proof.
  destruct w as [s k t]. run_store.
  destruct (socket s) as [[]|] eqn:Hs; cbn.
  - do 3 (split; [reflexivity|]). split; [discriminate|reflexivity].
  - do 3 (split; [reflexivity|]). split; [reflexivity|discriminate].
Qed.

(** ** Receiving events *)

(** Delivering an event runs its updater once per registration, and leaves
    the socket alone. *)
Lemma run_listeners_spec (e : ServerEvent Message) (ls : list EventName) :
  ∀ w,
    run_listeners e ls w
    = (Return tt,
       {| store := Nat.iter (length (filter (λ ev, ev = event_name e) ls))
                            (updater e) (store w);
          sock := sock w;
          trace := trace (exec (run_listeners e ls) w) |}).
Proof.
  induction ls as [|ev ls IH]; intros w.
  - by destruct w.
  - unfold exec. cbn [run_listeners]. unfold mbind, M_bind, bind.
    rewrite filter_cons. destruct (decide (ev = event_name e)) as [Hev|Hev].
    + unfold listener, set_. rewrite IH. unfold exec. rewrite IH.
      cbn [length store sock trace]. by rewrite Nat.iter_succ_r.
    + unfold ret. rewrite IH. unfold exec. by rewrite IH.
Qed.

Lemma deliver_store (e : ServerEvent Message) w :
  store (exec (deliver e) w)
  = Nat.iter (length (filter (λ ev, ev = event_name e) (listeners (sock w))))
             (updater e) (store w).
Proof. unfold exec, deliver. by rewrite run_listeners_spec. Qed.

Lemma deliver_sock (e : ServerEvent Message) w :
  sock (exec (deliver e) w) = sock w.
Proof. unfold exec, deliver. by rewrite run_listeners_spec. Qed.

Lemma iter_idempotent {A} (f : A → A) (n : nat) (x : A) :
  (∀ y, f (f y) = f y) → Nat.iter (S n) f x = f x.
Proof.
  intros Hf. induction n as [|n IH]; [reflexivity|].
  rewrite Nat.iter_succ, IH. apply Hf.
Qed.

(** The updaters of the presence and activity events give the same state
    when run twice as when run once; those of the two message events do
    not, as they append. *)
Lemma updater_idempotent (e : ServerEvent Message) s :
  event_name e ≠ receive_message →
  event_name e ≠ message_sent →
  updater e (updater e s) = updater e s.
Proof.
  intros H1 H2. destruct e as [us|acts|u|u|msg|msg|u a]; try done;
    unfold updater, with_onlineUsers, with_userActivities; simpl; f_equal.
  - apply set_eq. intros x. rewrite !elem_of_union. tauto.
  - apply set_eq. intros x. rewrite !elem_of_difference. tauto.
  - apply insert_insert_eq.
Qed.

(** However often [initSocket] has registered its listeners, a presence
    or activity event that has a listener updates the store as one run of
    its updater. *)
Lemma deliver_registered (e : ServerEvent Message) w :
  event_name e ∈ listeners (sock w) →
  event_name e ≠ receive_message →
  event_name e ≠ message_sent →
  store (exec (deliver e) w) = updater e (store w).
Proof.
  intros Hin H1 H2. rewrite deliver_store.
  destruct (filter (λ ev, ev = event_name e) (listeners (sock w)))
    as [|ev evs] eqn:Hf.
  - assert (Hin' : event_name e ∈ filter (λ ev, ev = event_name e)
                                    (listeners (sock w)))
      by (by apply list_elem_of_filter).
    rewrite Hf in Hin'. by apply elem_of_nil in Hin'.
  - cbn [length]. apply iter_idempotent.
    intros y. by apply updater_idempotent.
Qed.

(** A later entry of [new Map(entries)] wins over an earlier one with the
    same key. *)
Lemma new_Map_snoc (entries : list (string * string)) (k v : string) :
  new_Map (entries ++ [(k, v)]) = <[k := v]> (new_Map entries).
Proof. unfold new_Map. by rewrite foldl_app. Qed.

(** ** Sessions *)

Lemma iter_updater_isConnected (e : ServerEvent Message) (n : nat) s :
  isConnected (Nat.iter n (updater e) s) = isConnected s.
Proof.
  induction n as [|n IH]; [reflexivity|].
  rewrite Nat.iter_succ. by destruct e.
Qed.

(** Only [initSocket] and [disconnectSocket] touch the connection flag and
    the socket. *)
Lemma op_keeps_connection (o : Op User Message) w :
  (∀ userId, o ≠ CallInitSocket userId) →
  o ≠ CallDisconnectSocket →
  isConnected (store (exec (run_op o) w)) = isConnected (store w)
  ∧ sock (exec (run_op o) w) = sock w.
Proof.
  intros Hinit Hdisc.
  destruct o as [sel|r|userId| |a b c|peer r|e]; cbn [run_op].
  - by destruct w as [st []].
  - by destruct r as [rep|[[[[[[m'|]]|]]|]]], w as [st []].
  - by destruct (Hinit userId).
  - done.
  - run_store. destruct w as [st [] t]; simpl. by destruct (socket st) as [[]|].
  - by destruct r as [rep|[[[[[[m'|]]|]]|]]], w as [st []].
  - rewrite deliver_store, deliver_sock. split; [|done].
    apply iter_updater_isConnected.
Qed.

Lemma disconnectSocket_spec w :
  exec disconnectSocket w
  = if isConnected (store w)
    then {| store := with_isConnected false (store w);
            sock := {| auth := auth (sock w); active := false;
                       listeners := listeners (sock w) |};
            trace := trace w
                       ++ [ SocketDisconnect;
                            StoreSet (with_isConnected false (store w)) ] |}
    else w.
Proof.
  run_store. destruct (isConnected (store w)); [|reflexivity].
  run_store. reflexivity.
Qed.

(** In every session, a connected store has all its listeners
    registered. *)
Lemma session_registered (ops : list (Op User Message)) :
  isConnected (store (session ops)) = true →
  registered_events ⊆ listeners (sock (session ops)).
Proof.
  induction ops as [|o ops IH] using rev_ind; [discriminate|].
  unfold session. rewrite foldl_app. cbn [foldl].
  fold (session ops). set (w := session ops) in *.
  destruct o as [sel|r|userId| |a b c|peer r|e];
    try (edestruct op_keeps_connection as [-> ->]; [| |exact IH]; done).
  - cbn [run_op]. unfold exec. destruct (isConnected (store w)) eqn:Hc.
    + rewrite (initSocket_connected _ w Hc). cbn [snd]. rewrite Hc.
      exact IH.
    + rewrite (initSocket_disconnected _ w Hc). cbn [snd sock listeners].
      intros _ ev Hev. apply elem_of_app. by right.
  - cbn [run_op]. rewrite disconnectSocket_spec.
    destruct (isConnected (store w)) eqn:Hc; [discriminate|].
    rewrite Hc. discriminate.
Qed.

(** [disconnectSocket] removes no listener, so after a reconnection each
    event has two: a received message is then appended twice. *)
Lemma reconnect_duplicates_messages (userId : string) (m : Message) :
  messages
    (store (session [ CallInitSocket userId; CallDisconnectSocket;
                      CallInitSocket userId;
                      Receive (ReceiveMessage m : ServerEvent Message) ]
              : World User Message))
  = [m; m].
Proof. reflexivity. Qed.

(** C4: once [initSocket] has registered the listeners, receiving
    [users_online] makes [onlineUsers] the received set whatever it was,
    [user_connected] adds the received id and [user_disconnected] removes
    it; so [users_online(["a","b"])] followed by [user_disconnected("a")]
    leaves exactly ["b"] online, from any state of the store. *)
Theorem presence_events (us : list string) (u : string) w :
  registered_events ⊆ listeners (sock w) →
  onlineUsers (store (exec (deliver (UsersOnline us)) w)) = list_to_set us
  ∧ onlineUsers (store (exec (deliver (UserConnected u)) w))
    = onlineUsers (store w) ∪ {[u]}
  ∧ onlineUsers (store (exec (deliver (UserDisconnected u)) w))
    = onlineUsers (store w) ∖ {[u]}
  ∧ onlineUsers
      (store (exec (deliver (UserDisconnected "a"))
                   (exec (deliver (UsersOnline ["a"; "b"])) w)))
    = {["b"]}.
Proof.
  intros Hreg.
  assert (Hon : ∀ (e : ServerEvent Message) w',
             sock w' = sock w →
             event_name e ∈ registered_events →
             event_name e ≠ receive_message →
             event_name e ≠ message_sent →
             store (exec (deliver e) w') = updater e (store w')).
  { intros e w' Hk Hin H1 H2. apply deliver_registered; [|done..].
    rewrite Hk. by apply Hreg. }
  repeat split.
  - rewrite Hon; [done|done|by_evaluation|done..].
  - rewrite Hon; [done|done|by_evaluation|done..].
  - rewrite Hon; [done|done|by_evaluation|done..].
  - rewrite Hon; [|apply deliver_sock|by_evaluation|done..].
    rewrite Hon; [|done|by_evaluation|done..].
    cbn [updater store onlineUsers with_onlineUsers].
    apply set_eq. intros x.
    rewrite elem_of_difference, elem_of_list_to_set, !elem_of_cons,
      !elem_of_singleton.
    split.
    + intros [[->|[->|Hx]] Ha]; [done|done|by apply elem_of_nil in Hx].
    + intros ->. split; [by right; left|discriminate].
Qed.

(** C5: once [initSocket] has registered the listeners, receiving
    [activities] makes [userActivities] the map of the received pairs
    whatever it was, and [activity_updated] sets the entry of the given
    user and no other; so [activities([["x","Idle"],["y","Idle"]])]
    followed by [activity_updated({userId:"x", activity:"Playing"})]
    leaves the map [{x: "Playing", y: "Idle"}], from any state of the
    store. *)
Theorem activity_events (acts : list (string * string)) (u a : string) w :
  registered_events ⊆ listeners (sock w) →
  userActivities (store (exec (deliver (Activities acts)) w)) = new_Map acts
  ∧ userActivities (store (exec (deliver (ActivityUpdated u a)) w)) !! u
    = Some a
  ∧ (∀ k, k ≠ u →
       userActivities (store (exec (deliver (ActivityUpdated u a)) w)) !! k
       = userActivities (store w) !! k)
  ∧ userActivities
      (store (exec (deliver (ActivityUpdated "x" "Playing"))
                   (exec (deliver (Activities [("x", "Idle"); ("y", "Idle")]))
                         w)))
    = {[ "x" := "Playing"; "y" := "Idle" ]}.
Proof.
  intros Hreg.
  assert (Hon : ∀ (e : ServerEvent Message) w',
             sock w' = sock w →
             event_name e ∈ registered_events →
             event_name e ≠ receive_message →
             event_name e ≠ message_sent →
             store (exec (deliver e) w') = updater e (store w')).
  { intros e w' Hk Hin H1 H2. apply deliver_registered; [|done..].
    rewrite Hk. by apply Hreg. }
  repeat split.
  - rewrite Hon; [done|done|by_evaluation|done..].
  - rewrite Hon; [|done|by_evaluation|done..]. simpl. apply lookup_insert_eq.
  - intros k Hk. rewrite Hon; [|done|by_evaluation|done..]. simpl.
    by apply lookup_insert_ne.
  - rewrite Hon; [|apply deliver_sock|by_evaluation|done..].
    rewrite Hon; [|done|by_evaluation|done..].
    simpl. unfold new_Map. simpl.
    apply map_eq. intros k.
    destruct (decide (k = "x")) as [->|Hx]; [by rewrite !lookup_insert_eq|].
    rewrite !(lookup_insert_ne _ "x") by done.
    destruct (decide (k = "y")) as [->|Hy].
    + by rewrite lookup_insert_eq, lookup_singleton_eq.
    + rewrite lookup_insert_ne, lookup_insert_ne by done.
      by rewrite lookup_singleton_ne.
Qed.

(** ** What the operations leave alone *)

(** The updaters touch [onlineUsers], [userActivities] and [messages]
    only. *)
Lemma iter_updater_frame (e : ServerEvent Message) (n : nat) s :
  users (Nat.iter n (updater e) s) = users s
  ∧ isLoading (Nat.iter n (updater e) s) = isLoading s
  ∧ error (Nat.iter n (updater e) s) = error s
  ∧ socket (Nat.iter n (updater e) s) = socket s
  ∧ isConnected (Nat.iter n (updater e) s) = isConnected s
  ∧ selectedUser (Nat.iter n (updater e) s) = selectedUser s.
Proof.
  induction n as [|n IH]; [done|].
  rewrite Nat.iter_succ. destruct IH as (H1 & H2 & H3 & H4 & H5 & H6).
  by destruct e.
Qed.

(** Receiving an event writes to the store and calls nothing. *)
Lemma run_listeners_trace (e : ServerEvent Message) (ls : list EventName) :
  ∀ w, ∃ new,
    trace (exec (run_listeners e ls) w) = trace w ++ new
    ∧ Forall (λ a, is_store_set a = true) new.
Proof.
  induction ls as [|ev ls IH]; intros w.
  - exists []. split; [by rewrite app_nil_r|constructor].
  - unfold exec. cbn [run_listeners]. unfold mbind, M_bind, bind.
    destruct (decide (ev = event_name e)) as [Hev|Hev].
    + unfold listener, set_.
      destruct (IH (log (StoreSet (updater e (store w)))
                      {| store := updater e (store w); sock := sock w;
                         trace := trace w |})) as (new & Hnew & Hall).
      exists (StoreSet (updater e (store w)) :: new). split.
      * unfold exec in Hnew. rewrite Hnew. unfold log. cbn [trace].
        by rewrite <- app_assoc.
      * by constructor.
    + unfold ret. apply IH.
Qed.

Lemma deliver_trace (e : ServerEvent Message) w :
  ∃ new, trace (exec (deliver e) w) = trace w ++ new
         ∧ Forall (λ a, is_store_set a = true) new.
Proof. apply (run_listeners_trace e (listeners (sock w)) w). Qed.

Lemma filter_store_sets (P : Action User Message → bool)
    (new : list (Action User Message)) :
  (∀ s, P (StoreSet s) = false) →
  Forall (λ a, is_store_set a = true) new →
  filter (λ a, P a = true) new = [].
Proof.
  intros HP Hall. induction Hall as [|a new Ha Hall IH]; [reflexivity|].
  rewrite filter_cons, IH. destruct a; try discriminate Ha.
  rewrite decide_False; [reflexivity|]. by rewrite HP.
Qed.

(** Apart from [initSocket] and [disconnectSocket], no operation changes
    the socket held by the store, or connects. *)
Lemma op_keeps_socket (o : Op User Message) w :
  (∀ userId, o ≠ CallInitSocket userId) →
  o ≠ CallDisconnectSocket →
  socket (store (exec (run_op o) w)) = socket (store w)
  ∧ filter (λ a, is_connect a = true) (trace (exec (run_op o) w))
    = filter (λ a, is_connect a = true) (trace w).
Proof.
  intros Hinit Hdisc.
  destruct o as [sel|r|userId| |a b c|peer r|e]; cbn [run_op].
  - run_store. by rewrite filter_app, app_nil_r.
  - destruct r as [rep|[[[[[[m'|]]|]]|]]]; run_store;
      by rewrite filter_app, app_nil_r.
  - by destruct (Hinit userId).
  - done.
  - run_store. destruct (socket (store w)) as [[]|] eqn:Hs;
      [|cbn; by rewrite Hs].
    unfold socket_emit. run_store.
    by rewrite Hs, filter_app, app_nil_r.
  - destruct r as [rep|[[[[[[m'|]]|]]|]]]; run_store;
      by rewrite filter_app, app_nil_r.
  - rewrite deliver_store. split; [apply iter_updater_frame|].
    destruct (deliver_trace e w) as (new & -> & Hall).
    rewrite filter_app, (filter_store_sets is_connect new); [|done..].
    by rewrite app_nil_r.
Qed.

Lemma connecting_connects_once (userId : string) s :
  filter (λ a : Action User Message, is_connect a = true) (connecting userId s)
  = [SocketConnect].
Proof. reflexivity. Qed.

(** What holds of the store and its socket throughout a session: the
    store holds the socket; its flag says whether [connect] or
    [disconnect] was called last; the listeners are one copy of the seven
    for each [connect]; and [auth] is set once a [connect] was made. *)
Lemma session_invariant (ops : list (Op User Message)) :
  let w := session ops in
  let n := length (filter (λ a, is_connect a = true) (trace w)) in
  socket (store w) = Some shared_socket
  ∧ active (sock w) = isConnected (store w)
  ∧ listeners (sock w) = concat (replicate n registered_events)
  ∧ (isConnected (store w) = true → 0 < n)
  ∧ (0 < n → is_Some (auth (sock w))).
Proof.
  induction ops as [|o ops IH] using rev_ind.
  - cbn. repeat split; [discriminate|lia].
  - unfold session. rewrite foldl_app. cbn [foldl].
    fold (session ops). set (w := session ops) in *.
    cbv zeta in IH. destruct IH as (Hsock & Hact & Hls & Hpos & Hauth).
    cbv zeta.
    destruct o as [sel|r|userId| |a b c|peer r|e];
      try (edestruct op_keeps_connection as [-> ->]; [done|done|];
           edestruct op_keeps_socket as [-> ->]; [done|done|]; done).
    + cbn [run_op]. unfold exec. destruct (isConnected (store w)) eqn:Hc.
      * rewrite (initSocket_connected _ w Hc). cbn [snd]. by rewrite Hc.
      * rewrite (initSocket_disconnected _ w Hc).
        cbn [snd store sock trace listeners active auth socket isConnected
             with_isConnected].
        rewrite filter_app, length_app, connecting_connects_once, Hls.
        cbn [length].
        repeat split; [done|..|lia|by eexists].
        rewrite replicate_add, concat_app. cbn [replicate concat].
        by rewrite app_nil_r.
    + cbn [run_op]. rewrite disconnectSocket_spec.
      destruct (isConnected (store w)) eqn:Hc; [|by rewrite Hc].
      cbn [store sock trace listeners active auth socket isConnected
           with_isConnected].
      rewrite filter_app. cbn. rewrite app_nil_r.
      repeat split; [done|done|discriminate|done].
Qed.

(** X6: throughout a session the store's flag tells whether [connect] or
    [disconnect] was called last on the socket, and a connected store has
    its [auth] set and every one of the seven events listened to. *)
Theorem session_connection_state (ops : list (Op User Message)) :
  active (sock (session ops)) = isConnected (store (session ops))
  ∧ (isConnected (store (session ops)) = true →
     is_Some (auth (sock (session ops)))
     ∧ ∀ ev, ev ∈ listeners (sock (session ops))).
Proof.
  destruct (session_invariant ops) as (_ & Hact & Hls & Hpos & Hauth).
  split; [exact Hact|]. intros Hc. split; [by apply Hauth, Hpos|].
  intros ev. rewrite Hls.
  destruct (length (filter (λ a, is_connect a = true) (trace (session ops))))
    as [|n] eqn:Hn; [specialize (Hpos Hc); lia|].
  cbn [replicate concat]. apply elem_of_app. left.
  destruct ev; by_evaluation.
Qed.

Lemma count_registered (n : nat) (ev : EventName) :
  length (filter (λ x, x = ev) (concat (replicate n registered_events))) = n.
Proof.
  induction n as [|n IH]; [reflexivity|].
  cbn [replicate concat]. rewrite filter_app, length_app, IH.
  replace (length (filter (λ x, x = ev) registered_events)) with 1;
    [lia|by destruct ev].
Qed.

(** X7: no operation ever removes a listener: after a session, every event
    has as many listeners as [connect] was called, the seven being
    registered again, in the same order, by each [initSocket] that
    connects. *)
Theorem session_listeners_accumulate (ops : list (Op User Message))
    (ev : EventName) :
  let n := length (filter (λ a, is_connect a = true) (trace (session ops))) in
  listeners (sock (session ops)) = concat (replicate n registered_events)
  ∧ length (filter (λ x, x = ev) (listeners (sock (session ops)))) = n.
Proof.
  destruct (session_invariant ops) as (_ & _ & Hls & _).
  cbv zeta in *. split; [exact Hls|]. rewrite Hls.
  apply count_registered.
Qed.

(** X8: in a session [sendMessage] always finds a socket in the store, so it
    emits [send_message] once, whether or not the store is connected. *)
Theorem sendMessage_in_session (ops : list (Op User Message))
    (receiverId senderId content : string) :
  trace (exec (sendMessage receiverId senderId content) (session ops))
  = trace (session ops)
      ++ [SocketEmit (emit_send_message receiverId senderId content)].
Proof.
  destruct (session_invariant ops) as (Hsock & _).
  run_store. by rewrite Hsock.
Qed.

(** ** Messages *)

Lemma iter_message_updater (m : Message) (n : nat) s :
  messages (Nat.iter n (updater (ReceiveMessage m)) s)
  = messages s ++ replicate n m
  ∧ messages (Nat.iter n (updater (MessageSent m)) s)
    = messages s ++ replicate n m.
Proof.
  induction n as [|n [IH1 IH2]]; [by rewrite !app_nil_r|].
  rewrite !Nat.iter_succ, replicate_S_end, app_assoc.
  cbn [updater messages with_messages]. by rewrite IH1, IH2.
Qed.

Lemma iter_updater_messages (e : ServerEvent Message) (n : nat) s :
  message_of e = None →
  messages (Nat.iter n (updater e) s) = messages s.
Proof.
  intros He. induction n as [|n IH]; [reflexivity|].
  rewrite Nat.iter_succ. by destruct e.
Qed.

(** X9: a received or echoed message is appended to [messages] once for
    each listener registered for its event: once after a first
    connection, twice after a reconnection. *)
Theorem message_appended_per_listener (m : Message) w :
  messages (store (exec (deliver (ReceiveMessage m)) w))
  = messages (store w)
      ++ replicate (length (filter (λ ev, ev = receive_message)
                                   (listeners (sock w)))) m
  ∧ messages (store (exec (deliver (MessageSent m)) w))
    = messages (store w)
        ++ replicate (length (filter (λ ev, ev = message_sent)
                                     (listeners (sock w)))) m.
Proof.
  rewrite !deliver_store. split; apply iter_message_updater.
Qed.

(** X10: on a store that connected once, the messages of the events
    received, incoming and echoed alike, are appended in the order of
    arrival, and the other events leave [messages] alone. *)
Theorem messages_in_arrival_order (es : list (ServerEvent Message)) w :
  listeners (sock w) = registered_events →
  messages (store (deliver_all es w)) = messages (store w) ++ omap message_of es.
Proof.
  revert w. induction es as [|e es IH]; intros w Hls.
  - cbn. by rewrite app_nil_r.
  - unfold deliver_all. cbn [foldl]. fold (deliver_all es (exec (deliver e) w)).
    rewrite IH by (by rewrite deliver_sock).
    rewrite deliver_store, Hls.
    destruct e as [us|acts|u|u|m|m|u a]; cbn [omap message_of];
      try (rewrite iter_updater_messages by done; reflexivity).
    + rewrite (proj1 (iter_message_updater m _ _)). cbn.
      by rewrite <- app_assoc.
    + rewrite (proj2 (iter_message_updater m _ _)). cbn.
      by rewrite <- app_assoc.
Qed.

(** An event nobody listens to changes nothing. *)
Lemma run_listeners_none (e : ServerEvent Message) (ls : list EventName) w :
  event_name e ∉ ls → run_listeners e ls w = (Return tt, w).
Proof.
  revert w. induction ls as [|ev ls IH]; intros w Hnot; [reflexivity|].
  apply not_elem_of_cons in Hnot as [Hne Hnot].
  cbn [run_listeners]. unfold mbind, M_bind, bind.
  rewrite decide_False by done. unfold ret. by apply IH.
Qed.

(** X11: receiving an event never throws, calls neither the socket nor the
    HTTP client, and changes nothing of the store but [onlineUsers],
    [userActivities] and [messages]; an event received before any
    [initSocket] registered a listener for it changes nothing at all. *)
Theorem deliver_frame (e : ServerEvent Message) w :
  outcome (deliver e) w = Return tt
  ∧ sock (exec (deliver e) w) = sock w
  ∧ (∃ new, trace (exec (deliver e) w) = trace w ++ new
            ∧ Forall (λ a, is_store_set a = true) new)
  ∧ users (store (exec (deliver e) w)) = users (store w)
  ∧ isLoading (store (exec (deliver e) w)) = isLoading (store w)
  ∧ error (store (exec (deliver e) w)) = error (store w)
  ∧ socket (store (exec (deliver e) w)) = socket (store w)
  ∧ isConnected (store (exec (deliver e) w)) = isConnected (store w)
  ∧ selectedUser (store (exec (deliver e) w)) = selectedUser (store w)
  ∧ (event_name e ∉ listeners (sock w) → exec (deliver e) w = w).
Proof.
  split; [unfold outcome, deliver; by rewrite run_listeners_spec|].
  split; [apply deliver_sock|]. split; [apply deliver_trace|].
  rewrite deliver_store.
  destruct (iter_updater_frame e
              (length (filter (λ ev, ev = event_name e) (listeners (sock w))))
              (store w)) as (H1 & H2 & H3 & H4 & H5 & H6).
  do 6 (split; [done|]).
  intros Hnot. unfold exec, deliver. by rewrite run_listeners_none.
Qed.

(** ** Disconnecting and reconnecting *)

(** X12: [disconnectSocket] on a store that is not connected does nothing;
    on a connected store it calls [disconnect] once and clears the flag,
    keeping the socket's [auth] and every registered listener and the rest
    of the store; a second call right after changes nothing. *)
Theorem disconnectSocket_behaviour w :
  (isConnected (store w) = false → disconnectSocket w = (Return tt, w))
  ∧ (isConnected (store w) = true →
     trace (exec disconnectSocket w)
     = trace w ++ [ SocketDisconnect;
                    StoreSet (with_isConnected false (store w)) ]
     ∧ store (exec disconnectSocket w) = with_isConnected false (store w)
     ∧ active (sock (exec disconnectSocket w)) = false
     ∧ auth (sock (exec disconnectSocket w)) = auth (sock w)
     ∧ listeners (sock (exec disconnectSocket w)) = listeners (sock w))
  ∧ outcome disconnectSocket w = Return tt
  ∧ exec disconnectSocket (exec disconnectSocket w) = exec disconnectSocket w.
Proof.
  split; [|split; [|split]].
  - intros Hc. run_store. by rewrite Hc.
  - intros Hc. rewrite disconnectSocket_spec, Hc. done.
  - run_store. by destruct (isConnected (store w)).
  - rewrite !disconnectSocket_spec.
    destruct (isConnected (store w)) eqn:Hc; cbn; by rewrite ?Hc.
Qed.

(** X13: a second [initSocket] for another user keeps the [auth] of the
    first; after a [disconnectSocket] it connects again as the new user,
    repeats the emission and registers the seven listeners a second time
    beside the first ones. *)
Theorem reconnect_as_other_user (first second : string) w :
  isConnected (store w) = false →
  let w1 := exec (initSocket first) w in
  let w3 := exec (initSocket second) (exec disconnectSocket w1) in
  auth (sock (exec (initSocket second) w1)) = Some first
  ∧ auth (sock w3) = Some second
  ∧ isConnected (store w3) = true
  ∧ listeners (sock w3)
    = listeners (sock w) ++ registered_events ++ registered_events
  ∧ trace w3
    = trace w ++ connecting first (store w)
        ++ [ SocketDisconnect; StoreSet (store w) ]
        ++ connecting second (store w).
Proof.
  intros Hc w1 w3. unfold w3, w1, exec.
  rewrite (initSocket_disconnected first w Hc). cbn [snd].
  rewrite initSocket_connected by reflexivity. cbn [snd sock auth].
  split; [reflexivity|].
  fold (exec disconnectSocket
          {| store := with_isConnected true (store w);
             sock := {| auth := Some first; active := true;
                        listeners := listeners (sock w) ++ registered_events |};
             trace := trace w ++ connecting first (store w) |}).
  rewrite disconnectSocket_spec. cbn [store isConnected with_isConnected].
  rewrite initSocket_disconnected by reflexivity.
  cbn [snd sock auth store isConnected with_isConnected listeners trace].
  assert (Hs : with_isConnected false (with_isConnected true (store w))
               = store w).
  { destruct (store w); unfold with_isConnected; cbn in *. by rewrite Hc. }
  rewrite Hs. do 3 (split; [by rewrite <- ?app_assoc|]).
  by rewrite <- !app_assoc.
Qed.

(** ** Fetching, again *)

(** X14: however its request fails, [fetchUsers] keeps [users], issues its
    one GET and clears the loading flag.  If the error carries a response
    with a body, the promise is fulfilled and [error] is the body's
    message, or undefined if it has none; if there is no response, or no
    body, reading the message throws, the promise is rejected with that
    TypeError and [error] stays null. *)
Theorem fetchUsers_failure_cases (e : AxiosError) w :
  let w' := exec (fetchUsers (HttpFail e)) w in
  users (store w') = users (store w)
  ∧ isLoading (store w') = false
  ∧ filter (λ a, is_get a = true) (trace w')
    = filter (λ a, is_get a = true) (trace w) ++ [HttpGet "/users"]
  ∧ match response e with
    | Some {| data := Some body |} =>
        outcome (fetchUsers (HttpFail e)) w = Return tt
        ∧ error (store w')
          = match message body with Some m => value m | None => undefined end
    | _ =>
        outcome (fetchUsers (HttpFail e)) w = Throw TypeError
        ∧ error (store w') = null
    end.
Proof.
  destruct e as [[[[[[m|]]|]]|]]; run_store;
    rewrite filter_app; done.
Qed.

(** X15: [fetchMessages] asks for [/users/messages/] followed by the peer's
    id, once.  On success [messages] becomes the received history,
    whatever it held, messages received over the socket included; on a
    server error it is kept and [error] is the server's message.  In no
    case does it touch [users], the selection, the presence and activity
    data, the connection flag or the socket, and it always clears the
    loading flag. *)
Theorem fetchMessages_behaviour (peer : string) (history : list Message)
    (m : string) (r : HttpResult (list Message)) w :
  let w' := exec (fetchMessages peer r) w in
  messages (store (exec (fetchMessages peer (HttpOk {| data := history |})) w))
  = history
  ∧ messages (store (exec (fetchMessages peer (HttpFail (server_error m))) w))
    = messages (store w)
  ∧ error (store (exec (fetchMessages peer (HttpFail (server_error m))) w))
    = value m
  ∧ filter (λ a, is_get a = true) (trace w')
    = filter (λ a, is_get a = true) (trace w)
        ++ [HttpGet ("/users/messages/" ++ peer)%string]
  ∧ isLoading (store w') = false
  ∧ users (store w') = users (store w)
  ∧ selectedUser (store w') = selectedUser (store w)
  ∧ onlineUsers (store w') = onlineUsers (store w)
  ∧ userActivities (store w') = userActivities (store w)
  ∧ isConnected (store w') = isConnected (store w)
  ∧ socket (store w') = socket (store w)
  ∧ sock w' = sock w.
Proof.
  do 3 (split; [reflexivity|]).
  destruct r as [rep|[[[[[[m'|]]|]]|]]]; run_store;
    rewrite filter_app; done.
Qed.

(** X16: only the two fetches call the HTTP client, once per call and
    whatever the request ends as; no other operation, and no event, issues
    a request. *)
Theorem requests_only_from_fetches (o : Op User Message) w :
  filter (λ a, is_get a = true) (trace (exec (run_op o) w))
  = filter (λ a, is_get a = true) (trace w)
      ++ match o with
         | CallFetchUsers _ => [HttpGet "/users"]
         | CallFetchMessages peer _ =>
             [HttpGet ("/users/messages/" ++ peer)%string]
         | _ => []
         end.
Proof.
  destruct o as [sel|r|userId| |a b c|peer r|e]; cbn [run_op].
  - run_store. by rewrite filter_app.
  - destruct r as [rep|[[[[[[m'|]]|]]|]]]; run_store;
      by rewrite filter_app.
  - unfold exec. destruct (isConnected (store w)) eqn:Hc.
    + rewrite initSocket_connected by done. by rewrite app_nil_r.
    + rewrite initSocket_disconnected by done. cbn [snd trace].
      by rewrite filter_app.
  - rewrite disconnectSocket_spec.
    destruct (isConnected (store w)); [|by rewrite app_nil_r].
    cbn [trace]. by rewrite filter_app.
  - run_store. destruct (socket (store w)) as [[]|];
      [|cbn; by rewrite app_nil_r].
    unfold socket_emit. run_store. by rewrite filter_app.
  - destruct r as [rep|[[[[[[m'|]]|]]|]]]; run_store;
      by rewrite filter_app.
  - destruct (deliver_trace e w) as (new & -> & Hall).
    by rewrite filter_app, (filter_store_sets is_get new).
Qed.

(** X17: [selectedUser] is what the last [setSelectedUser] was given: that
    operation sets it, also to none, and no other operation or event
    changes it. *)
Theorem selectedUser_only_by_setSelectedUser (o : Op User Message) w :
  selectedUser (store (exec (run_op o) w))
  = match o with
    | CallSetSelectedUser user => user
    | _ => selectedUser (store w)
    end.
Proof.
  destruct o as [sel|r|userId| |a b c|peer r|e]; cbn [run_op].
  - reflexivity.
  - by destruct r as [rep|[[[[[[m'|]]|]]|]]].
  - run_store. by destruct (isConnected (store w)).
  - run_store. by destruct (isConnected (store w)).
  - run_store. by destruct (socket (store w)) as [[]|].
  - by destruct r as [rep|[[[[[[m'|]]|]]|]]].
  - rewrite deliver_store. apply iter_updater_frame.
Qed.

(** ** Presence and activities, again *)

Lemma deliver_once (e : ServerEvent Message) w :
  registered_events ⊆ listeners (sock w) →
  message_of e = None →
  store (exec (deliver e) w) = updater e (store w).
Proof.
  intros Hreg He. apply deliver_registered.
  - apply Hreg. destruct e; by_evaluation.
  - by destruct e.
  - by destruct e.
Qed.

(** X18: with the listeners registered, a list of online users is taken as
    a set (a user is online exactly if listed, however often);
    [user_connected] for a user already online and [user_disconnected] for
    a user not online leave the set as it is; and a user who was not
    online and connects, then disconnects, leaves it as it was. *)
Theorem presence_round_trip (us : list string) (u : string) w :
  registered_events ⊆ listeners (sock w) →
  (∀ x, x ∈ onlineUsers (store (exec (deliver (UsersOnline us)) w)) ↔ x ∈ us)
  ∧ (u ∈ onlineUsers (store w) →
     onlineUsers (store (exec (deliver (UserConnected u)) w))
     = onlineUsers (store w))
  ∧ (u ∉ onlineUsers (store w) →
     onlineUsers (store (exec (deliver (UserDisconnected u)) w))
     = onlineUsers (store w))
  ∧ (u ∉ onlineUsers (store w) →
     onlineUsers (store (exec (deliver (UserDisconnected u))
                              (exec (deliver (UserConnected u)) w)))
     = onlineUsers (store w)).
Proof.
  intros Hreg. split; [|split; [|split]].
  - intros x. rewrite deliver_once by done. cbn.
    apply elem_of_list_to_set.
  - intros Hin. rewrite deliver_once by done. cbn.
    apply set_eq. intros x. rewrite elem_of_union, elem_of_singleton.
    split; [intros [?| ->]; done|by left].
  - intros Hnot. rewrite deliver_once by done. cbn.
    apply set_eq. intros x. rewrite elem_of_difference, elem_of_singleton.
    split; [by intros [? _]|]. intros Hx. split; [done|by intros ->].
  - intros Hnot. rewrite deliver_once by (by rewrite ?deliver_sock).
    rewrite deliver_once by done. cbn.
    apply set_eq. intros x.
    rewrite elem_of_difference, elem_of_union, elem_of_singleton.
    split; [intros [[?|?] ?]; done|].
    intros Hx. split; [by left|by intros ->].
Qed.

Lemma dom_new_Map (acts : list (string * string)) :
  dom (new_Map acts) = list_to_set acts.*1.
Proof.
  induction acts as [|[k v] acts IH] using rev_ind.
  - unfold new_Map. cbn. by rewrite dom_empty_L.
  - rewrite new_Map_snoc, dom_insert_L, IH, fmap_app, list_to_set_app_L.
    cbn. apply set_eq. intros x.
    rewrite !elem_of_union, elem_of_singleton, elem_of_empty. tauto.
Qed.

Lemma new_Map_last (pre post : list (string * string)) (k v : string) :
  k ∉ post.*1 → new_Map (pre ++ (k, v) :: post) !! k = Some v.
Proof.
  induction post as [|[k' v'] post IH] using rev_ind; intros Hnot.
  - rewrite new_Map_snoc. apply lookup_insert_eq.
  - rewrite fmap_app, not_elem_of_app in Hnot. destruct Hnot as [Hpost Hk'].
    rewrite app_comm_cons, app_assoc, new_Map_snoc.
    rewrite lookup_insert_ne; [by apply IH|].
    intros ->. apply Hk'. cbn. apply elem_of_cons. by left.
Qed.

(** X19: with the listeners registered, after an [activities] event the
    map has an entry exactly for the users of the received pairs: a user
    who is not among them has no activity any more, and a user listed
    several times has the activity of the last pair. *)
Theorem activities_payload (acts : list (string * string)) (k : string) w :
  registered_events ⊆ listeners (sock w) →
  dom (userActivities (store (exec (deliver (Activities acts)) w)))
  = list_to_set acts.*1
  ∧ (k ∉ acts.*1 →
     userActivities (store (exec (deliver (Activities acts)) w)) !! k = None)
  ∧ (∀ pre v post,
       acts = pre ++ (k, v) :: post →
       k ∉ post.*1 →
       userActivities (store (exec (deliver (Activities acts)) w)) !! k
       = Some v).
Proof.
  intros Hreg. rewrite deliver_once by done. cbn.
  split; [apply dom_new_Map|]. split.
  - intros Hnot. apply not_elem_of_dom. rewrite dom_new_Map.
    by rewrite elem_of_list_to_set.
  - intros pre v post -> Hnot. by apply new_Map_last.
Qed.

End ChatProperties.

(* ===================================================================== *)
(** * The properties at concrete inputs                                   *)
(* ===================================================================== *)

Section Instances.

Import Stats.

(** [getStats] on [sample_db], the aggregation completing first. *)
Lemma getStats_artists_bound_witness :
  ∃ totalArtists,
    trace (getStats_on sample_db
             [ArtistAggregate; UserCount; SongCount; AlbumCount])
    = (Issue <$> all_reads)
        ++ [Respond 200 [ ("totalAlbums", 2); ("totalSongs", 3);
                          ("totalUsers", 1);
                          ("totalArtists", totalArtists) ]]
    ∧ totalArtists ≤ 3 + 2
    ∧ (songs sample_db = [] → albums sample_db = [] → totalArtists = 0).
Proof.
  apply (getStats_artists_bound sample_db
           [ArtistAggregate; UserCount; SongCount; AlbumCount]).
  apply (bool_decide_unpack _). vm_compute. exact I.
Defined.


(** The user count fails second, the aggregation fails last. *)
Lemma getStats_forwards_failure_witness :
  ∃ pre r e post,
    [ SongsSettled (Fulfilled 3); UsersSettled (Rejected "db down");
      AlbumsSettled (Fulfilled 2); ArtistsSettled (Rejected "timeout") ]
    = pre ++ reject r e :: post
    ∧ Forall (λ s, fulfilled s = true) pre
    ∧ getStats [ SongsSettled (Fulfilled 3); UsersSettled (Rejected "db down");
                 AlbumsSettled (Fulfilled 2);
                 ArtistsSettled (Rejected "timeout") ]
      = {| pall := AllRejected e;
           trace := (Issue <$> all_reads) ++ [Next e] |}.
Proof.
  apply (getStats_forwards_failure
           [ SongsSettled (Fulfilled 3); UsersSettled (Rejected "db down");
             AlbumsSettled (Fulfilled 2);
             ArtistsSettled (Rejected "timeout") ]).
  - apply (bool_decide_unpack _). vm_compute. exact I.
  - apply (bool_decide_unpack _). vm_compute. exact I.
Defined.

(** The aggregation is blocked while the three counts are fulfilled. *)
Lemma getStats_reads_concurrent_witness :
  let ss := [ UsersSettled (Fulfilled 1); SongsSettled (Fulfilled 3);
              AlbumsSettled (Fulfilled 2) ] in
  trace (getStats ss) = Issue <$> all_reads
  ∧ ∃ body,
      trace (getStats (ss ++ [ArtistsSettled (Fulfilled [ {| count := 3 |} ])]))
      = (Issue <$> all_reads) ++ [Respond 200 body].
Proof.
  intros ss.
  destruct (getStats_reads_concurrent ArtistAggregate ss ss
              (ArtistsSettled (Fulfilled [ {| count := 3 |} ])))
    as (_ & _ & Hwait & _ & Hanswer).
  - apply (bool_decide_unpack _). vm_compute. exact I.
  - apply (bool_decide_unpack _). vm_compute. exact I.
  - split.
    + exact Hwait.
    + apply Hanswer; [reflexivity|].
      apply (bool_decide_unpack _). vm_compute. exact I.
Defined.

End Instances.

Section ChatInstances.

Import Chat.

(** Users and messages are plain strings here. *)

(** A second [initSocket] right after the first, on the store as created. *)
Lemma initSocket_idempotent_witness :
  initSocket "u2" (connected_world "u1" : World string string)
  = (Return tt, connected_world "u1")
  ∧ trace (exec (initSocket "u2") (exec (initSocket "u1") (init_world : World string string)))
    = connecting "u1" init_state.
Proof.
  split.
  - exact (proj1 (initSocket_idempotent "u1" "u2" (connected_world "u1"))
             eq_refl).
  - exact (proj1 (proj2 (proj2 (initSocket_idempotent "u1" "u2" init_world))
                    eq_refl)).
Defined.

(** The presence events on a store that has just connected. *)
Lemma presence_events_witness :
  onlineUsers
    (store (exec (deliver (UserDisconnected "a"))
                 (exec (deliver (UsersOnline ["a"; "b"]))
                       (connected_world "me" : World string string))))
  = {["b"]}.
Proof.
  apply (presence_events ["a"; "b"] "a" (connected_world "me")).
  apply (bool_decide_unpack _). vm_compute. exact I.
Defined.

(** The activity events on a store that has just connected. *)
Lemma activity_events_witness :
  userActivities
    (store (exec (deliver (ActivityUpdated "x" "Playing"))
                 (exec (deliver (Activities [("x", "Idle"); ("y", "Idle")]))
                       (connected_world "me" : World string string))))
  = {[ "x" := "Playing"; "y" := "Idle" ]}.
Proof.
  apply (activity_events [("x", "Idle"); ("y", "Idle")] "x" "Playing"
           (connected_world "me")).
  apply (bool_decide_unpack _). vm_compute. exact I.
Defined.

(** [sendMessage] without and with a socket in the store. *)
Lemma sendMessage_spec_witness :
  exec (sendMessage "bob" "alice" "hi") (socketless_world : World string string)
  = socketless_world
  ∧ trace (exec (sendMessage "bob" "alice" "hi") (init_world : World string string))
    = [SocketEmit (emit_send_message "bob" "alice" "hi")].
Proof.
  split.
  - apply (sendMessage_spec "bob" "alice" "hi" socketless_world).
    reflexivity.
  - apply (proj2 (proj2 (proj2 (proj2
             (sendMessage_spec "bob" "alice" "hi" init_world))))
             shared_socket).
    reflexivity.
Defined.

End ChatInstances.

Section FurtherInstances.

Import Stats.

(** A response and a rejection traced back to the reads. *)
Lemma getStats_answers_from_reads_witness :
  (SongsSettled (Fulfilled 3)
   ∈ [ AlbumsSettled (Fulfilled 2); SongsSettled (Fulfilled 3);
       ArtistsSettled (Fulfilled [ {| count := 3 |} ]);
       UsersSettled (Fulfilled 1) ]
   ∧ AlbumsSettled (Fulfilled 2)
     ∈ [ AlbumsSettled (Fulfilled 2); SongsSettled (Fulfilled 3);
         ArtistsSettled (Fulfilled [ {| count := 3 |} ]);
         UsersSettled (Fulfilled 1) ]
   ∧ UsersSettled (Fulfilled 1)
     ∈ [ AlbumsSettled (Fulfilled 2); SongsSettled (Fulfilled 3);
         ArtistsSettled (Fulfilled [ {| count := 3 |} ]);
         UsersSettled (Fulfilled 1) ]
   ∧ ArtistsSettled (Fulfilled [ {| count := 3 |} ])
     ∈ [ AlbumsSettled (Fulfilled 2); SongsSettled (Fulfilled 3);
         ArtistsSettled (Fulfilled [ {| count := 3 |} ]);
         UsersSettled (Fulfilled 1) ])
  ∧ ∃ r, reject r "db down"
         ∈ [ SongsSettled (Fulfilled 3); UsersSettled (Rejected "db down") ].
Proof.
  split.
  - apply (getStats_answers_from_reads
             [ AlbumsSettled (Fulfilled 2); SongsSettled (Fulfilled 3);
               ArtistsSettled (Fulfilled [ {| count := 3 |} ]);
               UsersSettled (Fulfilled 1) ]
             3 2 1 [ {| count := 3 |} ] "").
    reflexivity.
  - apply (getStats_answers_from_reads
             [ SongsSettled (Fulfilled 3); UsersSettled (Rejected "db down") ]
             0 0 0 [] "db down").
    reflexivity.
Defined.


End FurtherInstances.

Section FurtherChatInstances.

Import Chat.

(** A session of one [initSocket]. *)
Lemma session_connection_state_witness :
  is_Some (auth (sock (session [CallInitSocket "me"] : World string string)))
  ∧ ∀ ev, ev ∈ listeners
                 (sock (session [CallInitSocket "me"] : World string string)).
Proof.
  apply (session_connection_state [CallInitSocket "me"]).
  reflexivity.
Defined.

(** Two messages and a presence event on a store that connected once. *)
Lemma messages_in_arrival_order_witness :
  messages
    (store (deliver_all [ ReceiveMessage "hi"; UsersOnline ["a"];
                          MessageSent "yo" ]
                        (connected_world "me" : World string string)))
  = ["hi"; "yo"].
Proof.
  apply (messages_in_arrival_order
           [ ReceiveMessage "hi"; UsersOnline ["a"]; MessageSent "yo" ]
           (connected_world "me")).
  reflexivity.
Defined.

(** A message received by the store as created, before any [initSocket]. *)
Lemma deliver_frame_witness :
  exec (deliver (ReceiveMessage "hi")) (init_world : World string string)
  = init_world.
Proof.
  apply (deliver_frame (ReceiveMessage "hi") init_world).
  apply (bool_decide_unpack _). vm_compute. exact I.
Defined.

(** [disconnectSocket] on the store as created, and after [initSocket]. *)
Lemma disconnectSocket_behaviour_witness :
  disconnectSocket (init_world : World string string) = (Return tt, init_world)
  ∧ listeners (sock (exec disconnectSocket
                       (connected_world "me" : World string string)))
    = registered_events.
Proof.
  split.
  - apply (disconnectSocket_behaviour init_world). reflexivity.
  - apply (proj1 (proj2 (disconnectSocket_behaviour (connected_world "me")))).
    reflexivity.
Defined.

(** Connecting as [u1], then as [u2], with and without a disconnection in
    between. *)
Lemma reconnect_as_other_user_witness :
  auth (sock (exec (initSocket "u2")
                (exec (initSocket "u1") (init_world : World string string))))
  = Some "u1"
  ∧ auth (sock (exec (initSocket "u2")
                  (exec disconnectSocket
                     (exec (initSocket "u1")
                        (init_world : World string string)))))
    = Some "u2".
Proof.
  destruct (reconnect_as_other_user "u1" "u2"
              (init_world : World string string) eq_refl)
    as (H1 & H2 & _).
  split; [exact H1|exact H2].
Defined.

(** A user who comes and goes on a store that has just connected. *)
Lemma presence_round_trip_witness :
  onlineUsers
    (store (exec (deliver (UserDisconnected "a"))
                 (exec (deliver (UserConnected "a"))
                       (connected_world "me" : World string string))))
  = onlineUsers (store (connected_world "me" : World string string)).
Proof.
  apply (presence_round_trip [] "a" (connected_world "me")).
  - apply (bool_decide_unpack _). vm_compute. exact I.
  - apply (bool_decide_unpack _). vm_compute. exact I.
Defined.

(** A user listed twice in an [activities] event. *)
Lemma activities_payload_witness :
  userActivities
    (store (exec (deliver (Activities [("x", "Idle"); ("x", "Playing")]))
                 (connected_world "me" : World string string)))
  !! "x"
  = Some "Playing".
Proof.
  apply (proj2 (proj2 (activities_payload
                         [("x", "Idle"); ("x", "Playing")] "x"
                         (connected_world "me")
                         ltac:(apply (bool_decide_unpack _); vm_compute;
                               exact I)))
           [("x", "Idle")] "Playing" []).
  - reflexivity.
  - apply (bool_decide_unpack _). vm_compute. exact I.
Defined.

End FurtherChatInstances.
